(** * Load-balance baseline driver (non_RL_algos/loadBalance.py)

    A shallow embedding of the load-balancing baseline of the
    coordination environment interface: the placement and schedule
    builders, the run driver [main] and the artifact finalizer
    [copy_input_files], together with the properties of the
    specification that concern them.

    Conventions of the embedding.
    - Python [int] is [Z]; identifiers and paths are [string].
    - A Python [dict] is a [gmap] keyed by strings; a [defaultdict] read
      at a missing key yields the default and the following store inserts
      it, which is written out in [schedule_set].
    - Probabilities are exact rationals ([Q]); the floating-point
      rounding of the interpreter is not modelled.
    - A raised exception is the [Fail] outcome of the [Run] monad, which
      keeps the world reached when the exception was raised.
    - The collaborators that are not part of this repository (the
      simulator, the normalizer, the summary writer, the random number
      generator, the logger) are parameters of the sections below.
    - So are [os.makedirs] and [shutil.copyfile]: the state of the file
      system is a type parameter, and what the driver does to it is
      stated for all operations that keep the contract [FileLaws], in
      terms of [os.path.isdir], the bytes of a file and
      [os.path.samefile].  The file system without links of
      [FlatFileSystem] is one instance, on which the driver is run. *)

From Stdlib Require Import QArith Qabs Ascii String.
From stdpp Require Import gmap strings list fin_maps pretty sorting.

Local Open Scope Z_scope.
Local Open Scope string_scope.
Local Open Scope list_scope.

(** ** Exceptions *)

Inductive Exn : Type :=
  | IndexError            (* pop from empty list *)
  | KeyError (k : string) (* dict lookup of a missing key *)
  | FileNotFoundError (p : string)
  | FileExistsError (p : string)
  | NotADirectoryError (p : string)
  | IsADirectoryError (p : string)
  | SameFileError (p : string)
  | TypeError             (* iterating over None *)
  | ExternalError (what : string). (* raised inside a collaborator *)

(** ** Pure builders *)

Module Builders.

(** [list.pop()]: removes and returns the last element; [IndexError] on
    the empty list. *)
Definition pop {A} (l : list A) : Exn + (A * list A) :=
  match last l with
  | Some x => inr (x, removelast l)
  | None => inl IndexError
  end.

(** [get_placement], lines 49-64. *)
Definition get_placement (nodes_list sf_list : list string)
  : gmap string (list string) :=
  foldl (fun placement node => <[node := sf_list]> placement) ∅ nodes_list.

Abbreviation Dist := (gmap string Q).
Abbreviation Schedule :=
  (gmap string (gmap string (gmap string (gmap string Q)))).

(** [schedule[outer_node][sfc][sf][inner_node] = v] on the four-level
    [defaultdict]: each level that is missing is created on the way. *)
Definition schedule_set (schedule : Schedule)
    (outer_node sfc sf inner_node : string) (v : Q) : Schedule :=
  let m1 := default ∅ (schedule !! outer_node) in
  let m2 := default ∅ (m1 !! sfc) in
  let m3 := default ∅ (m2 !! sf) in
  <[outer_node := <[sfc := <[sf := <[inner_node := v]> m3]> m2]> m1]> schedule.

(** The distribution stored for an (origin, chain, function) triple:
    [schedule[outer_node][sfc][sf]], read without inserting defaults. *)
Definition schedule_dist (schedule : Schedule)
    (outer_node sfc sf : string) : option Dist :=
  match schedule !! outer_node with
  | Some m1 =>
      match m1 !! sfc with
      | Some m2 => m2 !! sf
      | None => None
      end
  | None => None
  end.

Definition schedule_get (schedule : Schedule)
    (outer_node sfc sf inner_node : string) : option Q :=
  match schedule_dist schedule outer_node sfc sf with
  | Some d => d !! inner_node
  | None => None
  end.

(** A [for] loop over a list, threading a state, whose body may raise. *)
Fixpoint for_each {A S} (body : A -> S -> Exn + S) (l : list A) (s : S)
  : Exn + S :=
  match l with
  | [] => inr s
  | x :: rest =>
      match body x s with
      | inl e => inl e
      | inr s' => for_each body rest s'
      end
  end.

Section WithNormalizer.

(** [common.common_functionalities.normalize_scheduling_probabilities]
    is not part of this repository.  It is a pure function on lists of
    numbers that may raise. *)
Variable normalize_scheduling_probabilities : list Q -> Exn + list Q.

(** Lines 101-102: the loop over [inner_node]; the state is the
    schedule and what is left of [uniform_prob_list]. *)
Fixpoint inner_loop (outer_node sfc sf : string) (inner_nodes : list string)
    (uniform_prob_list : list Q) (schedule : Schedule)
  : Exn + (Schedule * list Q) :=
  match inner_nodes with
  | [] => inr (schedule, uniform_prob_list)
  | inner_node :: rest =>
      match pop uniform_prob_list with
      | inl e => inl e
      | inr (p, uniform_prob_list') =>
          inner_loop outer_node sfc sf rest uniform_prob_list'
            (schedule_set schedule outer_node sfc sf inner_node p)
      end
  end.

(** Lines 97-102: the body of the loop over [sf]. *)
Definition sf_body (nodes_list : list string) (outer_node sfc sf : string)
    (schedule : Schedule) : Exn + Schedule :=
  let uniform_prob_list := repeat (0 : Q) (length nodes_list) in
  match normalize_scheduling_probabilities uniform_prob_list with
  | inl e => inl e
  | inr uniform_prob_list =>
      match inner_loop outer_node sfc sf nodes_list uniform_prob_list schedule with
      | inl e => inl e
      | inr (schedule, _) => inr schedule
      end
  end.

(** [get_schedule], lines 67-103. *)
Definition get_schedule (nodes_list sf_list sfc_list : list string)
  : Exn + Schedule :=
  for_each (fun outer_node =>
    for_each (fun sfc =>
      for_each (fun sf => sf_body nodes_list outer_node sfc sf) sf_list)
      sfc_list)
    nodes_list ∅.

End WithNormalizer.

(** Modelled from the spec: [normalize_scheduling_probabilities] of the
    absent module [common.common_functionalities], restricted to what the
    specification says about it: over [n >= 1] zero weights it returns
    [n] values each equal to [1/n]; the empty input is rejected.  Other
    inputs are rescaled by their sum. *)
Definition uniform_normalizer (l : list Q) : Exn + list Q :=
  match l with
  | [] => inl (ExternalError "normalize_scheduling_probabilities")
  | _ =>
      let s := foldr Qplus 0%Q l in
      if Qeq_bool s 0
      then inr (repeat (1 # Pos.of_nat (length l))%Q (length l))
      else inr (map (fun x => x / s)%Q l)
  end.

(** The sum of the entries of a distribution, [sum(d.values())]. *)
Definition dist_total (d : Dist) : Q :=
  map_fold (fun _ v acc => (v + acc)%Q) 0%Q d.

(** Stores into a distribution, in order: a later pair overrides an
    earlier one with the same key. *)
Definition insert_pairs (d : Dist) (ps : list (string * Q)) : Dist :=
  foldl (fun d nv => <[nv.1 := nv.2]> d) d ps.

(** The distribution that [get_schedule] stores for a triple it visits,
    given the list the normalizer returned: the nodes are paired with the
    list read from its end. *)
Definition popped_dist (nodes_list : list string) (probs : list Q) : Dist :=
  insert_pairs ∅ (zip nodes_list (reverse probs)).

(** The stores of one run of the inner loop, in order. *)
Definition set_pairs (o c f : string) (s : Schedule) (ps : list (string * Q))
  : Schedule :=
  foldl (fun s nv => schedule_set s o c f nv.1 nv.2) s ps.

(** Every triple of the schedule is either absent or holds [final]. *)
Definition settled_at (final : Dist) (s : Schedule) : Prop :=
  ∀ o c f, schedule_dist s o c f = None ∨ schedule_dist s o c f = Some final.

(** [s] is [s0] with the triples of [V] set to [final]. *)
Definition covered_at (final : Dist) (V : string → string → string → Prop)
    (s0 s : Schedule) : Prop :=
  ∀ o c f,
    (V o c f → schedule_dist s o c f = Some final) ∧
    (¬ V o c f → schedule_dist s o c f = schedule_dist s0 o c f).

End Builders.

(** ** Paths (posixpath) *)

Module Paths.

(** [rsplit c s]: the parts of [s] before and after the last [c]; [None]
    when [c] does not occur, as [s.rfind(c) = -1]. *)
Fixpoint rsplit (c : ascii) (s : string) : option (string * string) :=
  match s with
  | EmptyString => None
  | String a r =>
      match rsplit c r with
      | Some (pre, suf) => Some (String a pre, suf)
      | None => if Ascii.eqb a c then Some (EmptyString, r) else None
      end
  end.

Fixpoint has_char (c : ascii) (s : string) : bool :=
  match s with
  | EmptyString => false
  | String a r => Ascii.eqb a c || has_char c r
  end.

Fixpoint all_char (c : ascii) (s : string) : bool :=
  match s with
  | EmptyString => true
  | String a r => Ascii.eqb a c && all_char c r
  end.

(** [os.path.basename]: what follows the last separator. *)
Definition basename (p : string) : string :=
  match rsplit "/" p with
  | Some (_, b) => b
  | None => p
  end.

(** [os.path.splitext]: the extension starts at the last dot, unless that
    dot lies before the last separator or only dots precede it in the
    file name. *)
Definition splitext (p : string) : string * string :=
  match rsplit "." p with
  | Some (pre, suf) =>
      if has_char "/" suf then (p, "")
      else if all_char "." (basename pre) then (p, "")
      else (pre, String "." suf)
  | None => (p, "")
  end.

(** The directory that holds the entry [p]: what precedes the last
    separator.  [None] is the current directory, [Some ""] the root. *)
Definition parent (p : string) : option string :=
  match rsplit "/" p with
  | Some (d, _) => Some d
  | None => None
  end.

(** The proper prefixes of [p] that end before a separator, outermost
    first: the intermediate directories of [p]. *)
Fixpoint dir_prefixes (p : string) : list string :=
  match p with
  | EmptyString => []
  | String a r =>
      (if Ascii.eqb a "/" then [EmptyString] else [])
        ++ map (String a) (dir_prefixes r)
  end.

End Paths.

(** ** A file system without links

    [os.makedirs] and [shutil.copyfile] belong to the standard library,
    not to this repository: the driver takes them as collaborators, and
    its properties are stated for all operations that keep the contract
    [FileLaws] below.

    This module gives one such pair of operations, on a file system that
    has no links and whose paths are spelled in one way (plain names
    separated by single slashes), so that a path string names one entry.
    It is the file system of the scenarios on which the driver is run. *)

Module FlatFileSystem.
Import Paths.

Record Flat : Type := {
  dirs : gset string;
  files : gmap string string
}.

Definition is_dir (fs : Flat) (p : string) : bool :=
  bool_decide (p ∈ dirs fs).

Definition is_file (fs : Flat) (p : string) : bool :=
  bool_decide (is_Some (files fs !! p)).

(** Some directory on the way to [p] is a regular file. *)
Definition blocked (fs : Flat) (p : string) : bool :=
  existsb (is_file fs) (dir_prefixes p).

(** The directory that is to hold [p] exists: the current directory, the
    root, or a directory of the file system. *)
Definition holder_exists (fs : Flat) (p : string) : bool :=
  match parent p with
  | None => true
  | Some d => bool_decide (d = "") || is_dir fs d
  end.

(** On the way [l] to a directory, the first path that lies below a
    regular file: the one that cannot be created. *)
Fixpoint first_below_file (fs : Flat) (l : list string) : option string :=
  match l with
  | a :: rest =>
      match rest with
      | b :: _ => if is_file fs a then Some b else first_below_file fs rest
      | [] => None
      end
  | [] => None
  end.

(** [os.makedirs(name, exist_ok=True)]. *)
Definition makedirs (name : string) (fs : Flat) : Exn + Flat :=
  if is_dir fs name then inr fs
  else if bool_decide (name = "") then inl (FileNotFoundError name)
  else if is_file fs name then inl (FileExistsError name)
  else
    match first_below_file fs (dir_prefixes name ++ [name]) with
    | Some b => inl (NotADirectoryError b)
    | None =>
        inr {| dirs := dirs fs
                       ∪ list_to_set (filter (λ a, a ≠ "") (dir_prefixes name))
                       ∪ {[name]};
               files := files fs |}
    end.

(** [open(src, 'rb').read()]. *)
Definition open_read (fs : Flat) (src : string) : Exn + string :=
  if bool_decide (src = "") then inl (FileNotFoundError src)
  else
    match files fs !! src with
    | Some data => inr data
    | None =>
        if is_dir fs src then inl (IsADirectoryError src)
        else if blocked fs src then inl (NotADirectoryError src)
        else inl (FileNotFoundError src)
    end.

(** What [open(dst, 'wb')] raises, if anything. *)
Definition open_write (fs : Flat) (dst : string) : option Exn :=
  if bool_decide (dst = "") then Some (FileNotFoundError dst)
  else if is_dir fs dst then Some (IsADirectoryError dst)
  else if blocked fs dst then Some (NotADirectoryError dst)
  else if bool_decide (basename dst = "") then Some (IsADirectoryError dst)
  else if holder_exists fs dst then None
  else Some (FileNotFoundError dst).

(** [shutil.copyfile(src, dst)]. *)
Definition copyfile (src dst : string) (fs : Flat) : Exn + Flat :=
  if bool_decide (src = dst) && (is_file fs src || is_dir fs src)
  then inl (SameFileError src)
  else
    match open_read fs src with
    | inl e => inl e
    | inr data =>
        match open_write fs dst with
        | Some e => inl e
        | None => inr {| dirs := dirs fs; files := <[dst := data]> (files fs) |}
        end
    end.

(** An operation that raises has changed nothing here: each of the
    errors above is met before anything is written. *)
Definition unchanged_on_error (op : Flat -> Exn + Flat) (fs : Flat)
  : (Exn + unit) * Flat :=
  match op fs with
  | inl e => (inl e, fs)
  | inr fs' => (inr tt, fs')
  end.

(** What can be observed of the file system: [os.path.isdir], the bytes
    of a regular file, and [os.path.samefile]. *)
Definition isdir (fs : Flat) (p : string) : Prop := p ∈ dirs fs.

Definition content (fs : Flat) (p : string) : option string := files fs !! p.

Definition samefile (fs : Flat) (p q : string) : Prop :=
  p = q ∧ is_Some (files fs !! p).

End FlatFileSystem.

(** ** The run driver *)

Module Driver.
Import Paths Builders.

(** [SimulatorAction(placement, schedule)]. *)
Record SimulatorAction : Type := {
  placement : gmap string (list string);
  scheduling : Schedule
}.

(** The parsed command line, [parse_args], lines 106-113.  [seed] is
    [None] when the option is absent. *)
Record Args : Type := {
  iterations : Z;
  seed : option Z;
  network : string;
  service_functions : string;
  config : string
}.

Section WithCollaborators.

(** [Ext] is the state of the collaborators (simulator, random number
    generator, logger); [Stats] is the opaque [network_stats]; [FS] is
    the state of the file system. *)
Context {Ext Stats FS : Type}.

(** The state snapshot returned by [init] and [apply].  [st_network] is
    the mapping [network], whose entry [nodes] is a sequence of node
    descriptors; of the two other mappings only the key sequences are
    kept. *)
Record SimState : Type := {
  network_stats : Stats;
  st_network : gmap string (list (gmap string string));
  st_service_functions : list string;
  sfcs : list string
}.

(** What the program asks of the outside, in the order it asks. *)
Inductive Event : Type :=
  | ERandInt (a b : Z)
  | EMakeDirs (name : string)
  | ELogBasicConfig (filename : string)
  | ELogSetLevel (logger : string)
  | ESimulator (network_file sf_file config_file : string)
      (test_mode : bool) (test_dir : string)
  | ESimInit (seed : Z)
  | ESimApply (action : SimulatorAction)
  | ELogInit (stats : Stats)
  | ELogApply (i : Z) (stats : Stats)
  | ECopyFile (src dst : string)
  | ECreateInputFile (target_dir : string) (num_ingress : nat) (algo : string).

Record World : Type := {
  fs : FS;
  ext : Ext;
  trace : list Event
}.

Inductive Outcome (A : Type) : Type :=
  | Ok (a : A) (w : World)
  | Fail (e : Exn) (w : World).
Arguments Ok {A} a w.
Arguments Fail {A} e w.

Definition Run (A : Type) : Type := World -> Outcome A.

Definition ret {A} (a : A) : Run A := fun w => Ok a w.

Definition bind {A B} (m : Run A) (k : A -> Run B) : Run B :=
  fun w =>
    match m w with
    | Ok a w' => k a w'
    | Fail e w' => Fail e w'
    end.

Notation "x <- m ;; k" := (bind m (fun x => k))
  (at level 100, m at level 99, right associativity).
Notation "m ;;; k" := (bind m (fun _ => k))
  (at level 100, right associativity).

Definition emit (ev : Event) : Run unit :=
  fun w => Ok tt {| fs := fs w; ext := ext w; trace := trace w ++ [ev] |}.

Definition raise {A} (e : Exn) : Run A := fun w => Fail e w.

Definition lift_pure {A} (r : Exn + A) : Run A :=
  match r with
  | inl e => raise e
  | inr a => ret a
  end.

(** A call into a collaborator: it may change its own state and the
    file system, and returns or raises. *)
Definition ExtOp (A : Type) : Type := Ext -> FS -> (Exn + A) * Ext * FS.

Definition call {A} (ev : Event) (op : ExtOp A) : Run A :=
  emit ev ;;;
  fun w =>
    let '(r, e', fs') := op (ext w) (fs w) in
    let w' := {| fs := fs'; ext := e'; trace := trace w |} in
    match r with
    | inl x => Fail x w'
    | inr a => Ok a w'
    end.

(** A file-system operation of the standard library returns or raises,
    and leaves a file system in either case: what an operation has
    written before it raises is not taken back. *)
Definition FsOp : Type := FS -> (Exn + unit) * FS.

Definition fs_call (ev : Event) (op : FsOp) : Run unit :=
  emit ev ;;;
  fun w =>
    let '(r, fs') := op (fs w) in
    let w' := {| fs := fs'; ext := ext w; trace := trace w |} in
    match r with
    | inl x => Fail x w'
    | inr _ => Ok tt w'
    end.

(** The collaborators. *)
Record Env : Type := {
  DATETIME : string;
  get_project_root : string;
  abspath : string -> string;
  random_randint : Z -> Z -> Ext -> Z * Ext;
  normalize_scheduling_probabilities : list Q -> Exn + list Q;
  logging_basicConfig : string -> ExtOp unit;
  Simulator : string -> string -> string -> bool -> string -> ExtOp unit;
  simulator_init : Z -> ExtOp SimState;
  simulator_network : Ext -> list (string * gmap string string);
  simulator_apply : SimulatorAction -> ExtOp SimState;
  create_input_file : string -> nat -> string -> ExtOp unit;
  (* os.makedirs(name, exist_ok=True) *)
  os_makedirs : string -> FsOp;
  (* shutil.copyfile(src, dst) *)
  shutil_copyfile : string -> string -> FsOp
}.

(** The contract of the two file-system operations, in terms of what can
    be observed of a file system: [isdir fs p], the path is a directory;
    [content fs p], the bytes read from the regular file at the path;
    [samefile fs p q], the two paths name one and the same existing file
    (by whatever spelling, link or hard link).

    [os.makedirs] with [exist_ok=True], when it returns, has made the
    path a directory, with the directories on the way to it; it accepts a
    directory that exists.  [shutil.copyfile], when it returns, has given
    the target the bytes of the source.  Whether they return or raise,
    neither removes a directory, [os.makedirs] changes no file,
    [shutil.copyfile] changes no file but the one its target names, and
    does not separate two names of one file. *)
Record FileLaws (E : Env) (isdir : FS -> string -> Prop)
    (content : FS -> string -> option string)
    (samefile : FS -> string -> string -> Prop) : Prop := {
  makedirs_isdir : forall name fs fs',
    os_makedirs E name fs = (inr tt, fs') -> isdir fs' name;
  makedirs_exist_ok : forall name fs,
    isdir fs name -> exists fs', os_makedirs E name fs = (inr tt, fs');
  makedirs_parents : forall name fs fs' a,
    ~ isdir fs name -> os_makedirs E name fs = (inr tt, fs') ->
    a ∈ dir_prefixes name -> a <> "" -> isdir fs' a;
  makedirs_keeps_dirs : forall name fs r fs' p,
    os_makedirs E name fs = (r, fs') -> isdir fs p -> isdir fs' p;
  makedirs_keeps_files : forall name fs r fs' p,
    os_makedirs E name fs = (r, fs') -> content fs' p = content fs p;
  copyfile_copies : forall src dst fs fs',
    shutil_copyfile E src dst fs = (inr tt, fs') ->
    exists data, content fs src = Some data /\ content fs' dst = Some data;
  copyfile_frame : forall src dst fs r fs' p,
    shutil_copyfile E src dst fs = (r, fs') ->
    ~ samefile fs' p dst -> content fs' p = content fs p;
  copyfile_keeps_dirs : forall src dst fs r fs' p,
    shutil_copyfile E src dst fs = (r, fs') -> isdir fs p -> isdir fs' p;
  copyfile_keeps_samefile : forall src dst fs r fs' p q,
    shutil_copyfile E src dst fs = (r, fs') ->
    samefile fs p q -> samefile fs' p q
}.

Variable E : Env.

(** [copy_input_files], lines 17-26. *)
Definition copy_input_files
    (target_dir network_path service_path sim_config_path : string)
  : Run unit :=
  let new_network_path := target_dir +:+ "/" +:+ basename network_path in
  let new_service_path := target_dir +:+ "/" +:+ basename service_path in
  let new_sim_config_path := target_dir +:+ "/" +:+ basename sim_config_path in
  fs_call (EMakeDirs target_dir) (os_makedirs E target_dir) ;;;
  fs_call (ECopyFile network_path new_network_path)
          (shutil_copyfile E network_path new_network_path) ;;;
  fs_call (ECopyFile service_path new_service_path)
          (shutil_copyfile E service_path new_service_path) ;;;
  fs_call (ECopyFile sim_config_path new_sim_config_path)
          (shutil_copyfile E sim_config_path new_sim_config_path).

(** [get_ingress_nodes], lines 29-41, over [network.nodes(data=True)]. *)
Fixpoint get_ingress_nodes (nodes : list (string * gmap string string))
  : Exn + list string :=
  match nodes with
  | [] => inr []
  | node :: rest =>
      match node.2 !! "type" with
      | None => inl (KeyError "type")
      | Some ty =>
          match get_ingress_nodes rest with
          | inl e => inl e
          | inr ing_nodes =>
              inr (if bool_decide (ty = "Ingress") then node.1 :: ing_nodes
                   else ing_nodes)
          end
      end
  end.

(** [[node['id'] for node in init_state.network.get('nodes')]], line 140. *)
Fixpoint node_ids (nodes : list (gmap string string)) : Exn + list string :=
  match nodes with
  | [] => inr []
  | node :: rest =>
      match node !! "id" with
      | None => inl (KeyError "id")
      | Some i =>
          match node_ids rest with
          | inl e => inl e
          | inr ids => inr (i :: ids)
          end
      end
  end.

Definition nodes_of (init_state : SimState) : Exn + list string :=
  match st_network init_state !! "nodes" with
  | None => inl TypeError
  | Some nodes => node_ids nodes
  end.

(** [range(n)]. *)
Definition range (n : Z) : list Z := seqZ 0 n.

(** Lines 150-152: the apply loop. *)
Fixpoint apply_loop (action : SimulatorAction) (indices : list Z) : Run unit :=
  match indices with
  | [] => ret tt
  | i :: rest =>
      apply_state <- call (ESimApply action) (simulator_apply E action) ;;
      emit (ELogApply (i + 1) (network_stats apply_state)) ;;;
      apply_loop action rest
  end.

(** [random.randint(a, b)]. *)
Definition randint (a b : Z) : Run Z :=
  emit (ERandInt a b) ;;;
  fun w =>
    let '(r, e') := random_randint E a b (ext w) in
    Ok r {| fs := fs w; ext := e'; trace := trace w |}.

(** Lines 119-120: [if not args.seed: args.seed = random.randint(1, 9999)].
    [not x] holds of [None] and of the integer zero. *)
Definition resolve_seed (s : option Z) : Run Z :=
  match s with
  | None => randint 1 9999
  | Some v => if bool_decide (v = 0) then randint 1 9999 else ret v
  end.

Definition log_filename (args : Args) (seed : Z) : string :=
  "logs/" +:+ basename (network args) +:+ "_" +:+ DATETIME E +:+ "_"
    +:+ pretty seed +:+ ".log".

Definition results_dir_of (args : Args) (seed : Z) : string :=
  let network_stem := (splitext (basename (network args))).1 in
  let service_function_stem := (splitext (basename (service_functions args))).1 in
  let simulator_config_stem := (splitext (basename (config args))).1 in
  get_project_root E +:+ "/results/" +:+ network_stem +:+ "/"
    +:+ service_function_stem +:+ "/" +:+ simulator_config_stem
    +:+ "/" +:+ DATETIME E +:+ "_seed" +:+ pretty seed.

(** [main], lines 116-155, after [parse_args]. *)
Definition main (args : Args) : Run unit :=
  seed <- resolve_seed (seed args) ;;
  fs_call (EMakeDirs "logs") (os_makedirs E "logs") ;;;
  call (ELogBasicConfig (log_filename args seed))
       (logging_basicConfig E (log_filename args seed)) ;;;
  emit (ELogSetLevel "coordsim") ;;;
  let results_dir := results_dir_of args seed in
  call (ESimulator (abspath E (network args))
          (abspath E (service_functions args)) (abspath E (config args))
          true results_dir)
       (Simulator E (abspath E (network args))
          (abspath E (service_functions args)) (abspath E (config args))
          true results_dir) ;;;
  init_state <- call (ESimInit seed) (simulator_init E seed) ;;
  emit (ELogInit (network_stats init_state)) ;;;
  nodes_list <- lift_pure (nodes_of init_state) ;;
  let sf_list := st_service_functions init_state in
  let sfc_list := sfcs init_state in
  ingress_nodes <-
    (fun w => lift_pure (get_ingress_nodes (simulator_network E (ext w))) w) ;;
  let placement := get_placement nodes_list sf_list in
  schedule <- lift_pure
    (get_schedule (normalize_scheduling_probabilities E)
       nodes_list sf_list sfc_list) ;;
  let action := {| placement := placement; scheduling := schedule |} in
  apply_loop action (range (iterations args)) ;;;
  copy_input_files results_dir (abspath E (network args))
    (abspath E (service_functions args)) (abspath E (config args)) ;;;
  call (ECreateInputFile results_dir (length ingress_nodes) "LoadBalance")
       (create_input_file E results_dir (length ingress_nodes) "LoadBalance").

(** Lines 117-148: [main] up to its apply loop, with what the rest of
    [main] uses: the seed, the ingress nodes and the action. *)
Definition main_before_loop (args : Args)
  : Run (Z * list string * SimulatorAction) :=
  seed <- resolve_seed (seed args) ;;
  fs_call (EMakeDirs "logs") (os_makedirs E "logs") ;;;
  call (ELogBasicConfig (log_filename args seed))
       (logging_basicConfig E (log_filename args seed)) ;;;
  emit (ELogSetLevel "coordsim") ;;;
  let results_dir := results_dir_of args seed in
  call (ESimulator (abspath E (network args))
          (abspath E (service_functions args)) (abspath E (config args))
          true results_dir)
       (Simulator E (abspath E (network args))
          (abspath E (service_functions args)) (abspath E (config args))
          true results_dir) ;;;
  init_state <- call (ESimInit seed) (simulator_init E seed) ;;
  emit (ELogInit (network_stats init_state)) ;;;
  nodes_list <- lift_pure (nodes_of init_state) ;;
  let sf_list := st_service_functions init_state in
  let sfc_list := sfcs init_state in
  ingress_nodes <-
    (fun w => lift_pure (get_ingress_nodes (simulator_network E (ext w))) w) ;;
  let placement := get_placement nodes_list sf_list in
  schedule <- lift_pure
    (get_schedule (normalize_scheduling_probabilities E)
       nodes_list sf_list sfc_list) ;;
  ret (seed, ingress_nodes, {| placement := placement; scheduling := schedule |}).

(** Lines 150-155: the apply loop and what follows it. *)
Definition main_from_loop (args : Args)
    (x : Z * list string * SimulatorAction) : Run unit :=
  let '(seed, ingress_nodes, action) := x in
  let results_dir := results_dir_of args seed in
  apply_loop action (range (iterations args)) ;;;
  copy_input_files results_dir (abspath E (network args))
    (abspath E (service_functions args)) (abspath E (config args)) ;;;
  call (ECreateInputFile results_dir (length ingress_nodes) "LoadBalance")
       (create_input_file E results_dir (length ingress_nodes) "LoadBalance").

(** The events of [main] before the call of [init], after the seed is
    known. *)
Definition setup_events (args : Args) (seed : Z) : list Event :=
  [ EMakeDirs "logs";
    ELogBasicConfig (log_filename args seed);
    ELogSetLevel "coordsim";
    ESimulator (abspath E (network args)) (abspath E (service_functions args))
      (abspath E (config args)) true (results_dir_of args seed) ].

(** The three copies of [copy_input_files]. *)
Definition copy_events (target_dir network_path service_path sim_config_path : string)
  : list Event :=
  [ ECopyFile network_path (target_dir +:+ "/" +:+ basename network_path);
    ECopyFile service_path (target_dir +:+ "/" +:+ basename service_path);
    ECopyFile sim_config_path (target_dir +:+ "/" +:+ basename sim_config_path) ].

(** The events of [main] after the apply loop. *)
Definition final_events (args : Args) (seed : Z) (num_ingress : nat) : list Event :=
  EMakeDirs (results_dir_of args seed)
  :: copy_events (results_dir_of args seed) (abspath E (network args))
       (abspath E (service_functions args)) (abspath E (config args))
  ++ [ ECreateInputFile (results_dir_of args seed) num_ingress "LoadBalance" ].

(** The world an outcome ends in, whether it returned or raised. *)
Definition final_world {A} (o : Outcome A) : World :=
  match o with
  | Ok _ w => w
  | Fail _ w => w
  end.

Definition is_apply (ev : Event) : bool :=
  match ev with ESimApply _ => true | _ => false end.

Definition is_init (ev : Event) : bool :=
  match ev with ESimInit _ => true | _ => false end.

Definition is_copy (ev : Event) : bool :=
  match ev with ECopyFile _ _ => true | _ => false end.

Definition is_randint (ev : Event) : bool :=
  match ev with ERandInt _ _ => true | _ => false end.

(** The events of the apply loop: the call and the log line after it. *)
Definition is_loop_event (ev : Event) : bool :=
  match ev with ESimApply _ | ELogApply _ _ => true | _ => false end.

(** The events that neither copy a file nor call [apply]. *)
Definition is_setup (ev : Event) : bool := negb (is_copy ev) && negb (is_apply ev).

(** [m] extends the trace, whether it returns or raises, and only by
    events that satisfy [P]. *)
Definition only {A} (P : Event → bool) (m : Run A) : Prop :=
  ∀ w : World, ∃ evs : list Event,
    trace (final_world (m w)) = trace w ++ evs ∧
    Forall (λ ev, P ev = true) evs.

(** Started after [n0] calls of [apply], the computation copies a file
    only once [N] calls have been made, and makes no further call after a
    copy. *)
Definition copies_last (N n0 : nat) {A} (m : Run A) : Prop :=
  ∀ w : World, ∃ evs : list Event,
    trace (final_world (m w)) = trace w ++ evs ∧
    ∀ (l1 : list Event) src dst (l2 : list Event),
      evs = l1 ++ ECopyFile src dst :: l2 →
      (n0 + length (filter (λ ev, is_apply ev = true) l1))%nat = N ∧
      filter (λ ev, is_apply ev = true) l2 = [].

End WithCollaborators.

Arguments Ok {Ext Stats FS A} a w.
Arguments Fail {Ext Stats FS A} e w.
Arguments SimState : clear implicits.
Arguments Event : clear implicits.
Arguments World : clear implicits.
Arguments Env : clear implicits.

End Driver.

(** ** A small scenario

    Three nodes, two service functions, one chain, with collaborators that
    always answer; used to run the driver on concrete inputs. *)

Module Scenario.
Import Paths FlatFileSystem Builders Driver.

Definition scenario_fs : Flat := {|
  dirs := {["/data"]};
  files := {[ "/data/net.graphml" := "network";
              "/data/sf.yaml" := "services";
              "/data/cfg.yaml" := "configuration" ]}
|}.

Definition scenario_state (stats : string) : SimState string := {|
  network_stats := stats;
  st_network :=
    {[ "nodes" := [ {[ "id" := "n1" ]}; {[ "id" := "n2" ]}; {[ "id" := "n3" ]} ] ]};
  st_service_functions := ["fw"; "ids"];
  sfcs := ["sfc_1"]
|}.

(** The collaborator state counts the calls of [apply]. *)
Definition scenario_env : Env nat string Flat := {|
  DATETIME := "2020-01-01_00-00-00";
  get_project_root := "/proj";
  abspath := fun p => p;
  random_randint := fun _ _ e => (4711, e);
  normalize_scheduling_probabilities := uniform_normalizer;
  logging_basicConfig := fun _ e fs => (inr tt, e, fs);
  Simulator := fun _ _ _ _ _ e fs => (inr tt, e, fs);
  simulator_init := fun _ e fs => (inr (scenario_state "init"), e, fs);
  simulator_network := fun _ =>
    [ ("n1", {[ "type" := "Ingress" ]}); ("n2", {[ "type" := "Normal" ]});
      ("n3", {[ "type" := "Normal" ]}) ];
  simulator_apply := fun _ e fs => (inr (scenario_state "apply"), S e, fs);
  create_input_file := fun target_dir _ algo e fs =>
    (inr tt, e,
     {| dirs := dirs fs;
        files := <[target_dir +:+ "/input.yaml" := algo]> (files fs) |});
  os_makedirs := λ name, unchanged_on_error (makedirs name);
  shutil_copyfile := λ src dst, unchanged_on_error (copyfile src dst)
|}.

Definition scenario_world : World nat string Flat :=
  {| fs := scenario_fs; ext := 0%nat; trace := [] |}.

Definition scenario_args (n : Z) (s : option Z) : Args := {|
  iterations := n;
  seed := s;
  network := "/data/net.graphml";
  service_functions := "/data/sf.yaml";
  config := "/data/cfg.yaml"
|}.

(** A world whose results directory exists already. *)
Definition existing_dir_world : World nat string Flat := {|
  fs := {| dirs := {["out"; "a"; "b"; "c"]};
           files := {[ "a/net.graphml" := "network"; "b/sf.yaml" := "services";
                       "c/cfg.yaml" := "configuration" ]} |};
  ext := 0%nat;
  trace := []
|}.

(** Two inputs that share a base name. *)
Definition clash_world : World nat string Flat := {|
  fs := {| dirs := {["a"; "b"; "c"]};
           files := {[ "a/x.yaml" := "network"; "b/x.yaml" := "services";
                       "c/cfg.yaml" := "configuration" ]} |};
  ext := 0%nat;
  trace := []
|}.

End Scenario.

(** ** Auxiliary definitions for the further properties *)

Module Protocol.
Import Paths FlatFileSystem Builders Driver.

(** The schedule of a call that returned. *)
Definition schedule_of (r : Exn + Schedule) : Schedule :=
  match r with
  | inr s => s
  | inl _ => ∅
  end.

Section WithCollaborators.

Context {Ext Stats FS : Type}.

(** The event is one that a run with the seed [s] may emit: no draw of a
    random number, and every name that is formed from the seed is formed
    from [s]. *)
Definition carries_seed (E : Env Ext Stats FS) (args : Args) (s : Z)
    (ev : Event Stats) : bool :=
  match ev with
  | ERandInt _ _ => false
  | EMakeDirs name =>
      bool_decide (name = "logs") || bool_decide (name = results_dir_of E args s)
  | ELogBasicConfig filename => bool_decide (filename = log_filename E args s)
  | ESimulator _ _ _ _ test_dir => bool_decide (test_dir = results_dir_of E args s)
  | ESimInit x => bool_decide (x = s)
  | ECopyFile _ dst => bool_decide (parent dst = Some (results_dir_of E args s))
  | ECreateInputFile target_dir _ _ =>
      bool_decide (target_dir = results_dir_of E args s)
  | ELogSetLevel _ | ESimApply _ | ELogInit _ | ELogApply _ _ => true
  end.

(** The events of an apply loop that ran to its end: a call of [apply]
    and the log line that follows it, for each number. *)
Definition loop_events (action : SimulatorAction) (numbers : list Z)
    (stats : list Stats) : list (Event Stats) :=
  flat_map (λ p, [ESimApply action; ELogApply p.1 p.2]) (zip numbers stats).

(** In every outcome of [m], the calls of [apply] are at most [N] and
    carry one and the same action. *)
Definition applies_at_most (N : nat) {A} (m : @Run Ext Stats FS A) : Prop :=
  ∀ w : World Ext Stats FS, ∃ (evs : list (Event Stats)) action k,
    trace (final_world (m w)) = trace w ++ evs ∧
    filter (λ ev, is_apply ev = true) evs = repeat (ESimApply action) k ∧
    (k ≤ N)%nat.

(** The place of an event in the course of [main]: the draw of the
    seed (0), the log directory (1), the logging configuration (2, 3),
    the construction of the simulator (4), its initialization (5) and the
    log line after it (6), the apply loop (7), the results directory (8),
    the copies (9) and the summary (10). *)
Definition phase (ev : Event Stats) : nat :=
  match ev with
  | ERandInt _ _ => 0
  | EMakeDirs name => if bool_decide (name = "logs") then 1 else 8
  | ELogBasicConfig _ => 2
  | ELogSetLevel _ => 3
  | ESimulator _ _ _ _ _ => 4
  | ESimInit _ => 5
  | ELogInit _ => 6
  | ESimApply _ | ELogApply _ _ => 7
  | ECopyFile _ _ => 9
  | ECreateInputFile _ _ _ => 10
  end.

Definition is_summary (ev : Event Stats) : bool :=
  match ev with ECreateInputFile _ _ _ => true | _ => false end.

(** Only the events of the apply loop and the copies may repeat. *)
Definition repeatable (p : nat) : Prop := p = 7%nat ∨ p = 9%nat.

(** An event of phase [q] may follow one of phase [p]. *)
Definition phase_step (p q : nat) : Prop :=
  (p < q)%nat ∨ (p = q ∧ repeatable p).

(** In every outcome of [m], the events come in the order of their
    phases, which lie between [lo] and [hi]. *)
Definition within (lo hi : nat) {A} (m : @Run Ext Stats FS A) : Prop :=
  ∀ w : World Ext Stats FS, ∃ evs : list (Event Stats),
    trace (final_world (m w)) = trace w ++ evs ∧
    StronglySorted phase_step (phase <$> evs) ∧
    Forall (λ ev, (lo ≤ phase ev ≤ hi)%nat) evs.

End WithCollaborators.

End Protocol.

(** * Properties of the builders *)

Module BuildersFacts.
Import Builders.

(** ** Placement *)

Lemma foldl_insert_const_lookup (sf_list : list string) (ns : list string)
    (m : gmap string (list string)) (n : string) :
  foldl (fun placement node => <[node := sf_list]> placement) m ns !! n
  = if decide (n ∈ ns) then Some sf_list else m !! n.
Proof.
  revert m. induction ns as [|a ns IH]; intros m; cbn [foldl].
  - rewrite decide_False by apply not_elem_of_nil. done.
  - rewrite IH. destruct (decide (n ∈ ns)) as [Hin|Hnin].
    + rewrite decide_True by (by apply elem_of_cons; right). done.
    + destruct (decide (n = a)) as [->|Hne].
      * rewrite decide_True by (by apply elem_of_cons; left).
        by rewrite lookup_insert_eq.
      * rewrite decide_False by (by intros [?|?]%elem_of_cons).
        by rewrite lookup_insert_ne.
Qed.

Lemma get_placement_lookup (nodes_list sf_list : list string) (n : string) :
  get_placement nodes_list sf_list !! n
  = if decide (n ∈ nodes_list) then Some sf_list else None.
Proof.
  unfold get_placement. rewrite foldl_insert_const_lookup.
  by rewrite lookup_empty.
Qed.

Lemma get_placement_dom (nodes_list sf_list : list string) :
  dom (get_placement nodes_list sf_list) = list_to_set nodes_list.
Proof.
  apply set_eq. intros n. rewrite elem_of_dom, get_placement_lookup.
  rewrite elem_of_list_to_set.
  destruct (decide (n ∈ nodes_list)) as [Hin|Hnin]; split; intros H'; try done.
Qed.

Lemma get_placement_size (nodes_list sf_list : list string) :
  size (get_placement nodes_list sf_list) = length (remove_dups nodes_list).
Proof.
  rewrite <- size_dom, get_placement_dom.
  rewrite <- (size_list_to_set (C := gset string) (remove_dups nodes_list))
    by apply NoDup_remove_dups.
  f_equal. apply set_eq. intros n.
  by rewrite !elem_of_list_to_set, elem_of_remove_dups.
Qed.

(** ** Popping from the end *)

Lemma pop_snoc {A} (l : list A) (x : A) : pop (l ++ [x]) = inr (x, l).
Proof. unfold pop. by rewrite last_snoc, removelast_last. Qed.

Lemma pop_nil {A} : pop (@nil A) = inl IndexError.
Proof. reflexivity. Qed.

(** When the list holds at least as many values as there are nodes, the
    loop pops one value per node and none of the pops fails. *)
Lemma inner_loop_reverse (o c f : string) (ns : list string) (vs rest : list Q)
    (s : Schedule) :
  length vs = length ns →
  inner_loop o c f ns (rest ++ reverse vs) s
  = inr (set_pairs o c f s (zip ns vs), rest).
Proof.
  revert vs s. induction ns as [|n ns IH]; intros vs s Hlen.
  - destruct vs; [|done]. simpl. by rewrite app_nil_r.
  - destruct vs as [|v vs]; [done|]. simpl in Hlen.
    cbn [inner_loop]. rewrite reverse_cons, app_assoc, pop_snoc.
    rewrite IH by lia. done.
Qed.

Lemma inner_loop_exact (o c f : string) (ns : list string) (probs : list Q)
    (s : Schedule) :
  length probs = length ns →
  inner_loop o c f ns probs s
  = inr (set_pairs o c f s (zip ns (reverse probs)), []).
Proof.
  intros Hlen.
  rewrite <- (reverse_involutive probs) at 1.
  apply (inner_loop_reverse o c f ns (reverse probs) [] s).
  by rewrite length_reverse.
Qed.

(** ** Reading the schedule after a store *)

Lemma schedule_set_dist_same (s : Schedule) (o c f n : string) (v : Q) :
  schedule_dist (schedule_set s o c f n v) o c f
  = Some (<[n := v]> (default ∅ (schedule_dist s o c f))).
Proof.
  unfold schedule_dist, schedule_set. rewrite !lookup_insert_eq.
  destruct (s !! o) as [m1|]; simpl; [|done].
  destruct (m1 !! c) as [m2|]; simpl; [|done].
  by destruct (m2 !! f).
Qed.

Lemma schedule_set_dist_other (s : Schedule) (o c f n o' c' f' : string) (v : Q) :
  (o', c', f') ≠ (o, c, f) →
  schedule_dist (schedule_set s o c f n v) o' c' f' = schedule_dist s o' c' f'.
Proof.
  intros Hne. unfold schedule_dist, schedule_set.
  destruct (decide (o' = o)) as [->|Ho]; [|by rewrite lookup_insert_ne].
  rewrite lookup_insert_eq.
  destruct (decide (c' = c)) as [->|Hc].
  - rewrite lookup_insert_eq.
    destruct (decide (f' = f)) as [->|Hf]; [done|].
    rewrite lookup_insert_ne by done.
    destruct (s !! o) as [m1|]; simpl; [|done].
    by destruct (m1 !! c).
  - rewrite lookup_insert_ne by done.
    by destruct (s !! o).
Qed.

Lemma set_pairs_dist_same (o c f : string) (ps : list (string * Q)) (s : Schedule) :
  ps ≠ [] →
  schedule_dist (set_pairs o c f s ps) o c f
  = Some (insert_pairs (default ∅ (schedule_dist s o c f)) ps).
Proof.
  revert s. induction ps as [|[n v] ps IH]; intros s Hne; [done|].
  unfold set_pairs, insert_pairs in *. cbn [foldl fst snd].
  destruct ps as [|p ps].
  - cbn [foldl]. apply schedule_set_dist_same.
  - rewrite IH by done. by rewrite schedule_set_dist_same.
Qed.

Lemma set_pairs_dist_other (o c f o' c' f' : string) (ps : list (string * Q))
    (s : Schedule) :
  (o', c', f') ≠ (o, c, f) →
  schedule_dist (set_pairs o c f s ps) o' c' f' = schedule_dist s o' c' f'.
Proof.
  intros Hne. revert s. induction ps as [|[n v] ps IH]; intros s; [done|].
  unfold set_pairs in *. cbn [foldl fst snd].
  by rewrite IH, schedule_set_dist_other.
Qed.

(** Later pairs override earlier ones. *)
Lemma insert_pairs_union (d : Dist) (ps : list (string * Q)) :
  insert_pairs d ps = list_to_map (reverse ps) ∪ d.
Proof.
  revert d. induction ps as [|[n v] ps IH]; intros d.
  - simpl. by rewrite (left_id_L ∅ (∪)).
  - unfold insert_pairs in *. cbn [foldl fst snd]. rewrite IH.
    rewrite reverse_cons, list_to_map_app. cbn [list_to_map foldr].
    rewrite <- (assoc_L (∪)). f_equal.
    by rewrite insert_union_singleton_l.
Qed.

Lemma insert_pairs_idem (ps : list (string * Q)) :
  insert_pairs (insert_pairs ∅ ps) ps = insert_pairs ∅ ps.
Proof.
  rewrite !insert_pairs_union, (right_id_L ∅ (∪)).
  by rewrite (idemp_L (∪)).
Qed.

(** ** Loops with an invariant *)

Lemma for_each_invariant {A S} (body : A → S → Exn + S)
    (I : list A → S → Prop) (l : list A) (s0 : S) :
  I [] s0 →
  (∀ seen x s, I seen s → ∃ s', body x s = inr s' ∧ I (seen ++ [x]) s') →
  ∃ s', for_each body l s0 = inr s' ∧ I l s'.
Proof.
  intros H0 Hstep.
  assert (Hgen : ∀ seen s, I seen s →
            ∃ s', for_each body l s = inr s' ∧ I (seen ++ l) s').
  { induction l as [|x l IH]; intros seen s Hs.
    - exists s. by rewrite app_nil_r.
    - destruct (Hstep seen x s Hs) as (s1 & Hb & Hs1).
      destruct (IH (seen ++ [x]) s1 Hs1) as (s2 & Hl & Hs2).
      exists s2. cbn [for_each]. rewrite Hb. split; [done|].
      by rewrite <- app_assoc in Hs2. }
  apply (Hgen [] s0 H0).
Qed.

(** ** The schedule that [get_schedule] builds *)

(** Closes the propositional goals that relate the triples seen so far,
    the triple just visited and their union. *)
Ltac pair_cases :=
  split;
  [ intros [?|Heq]; [|try (injection Heq as -> -> ->)]; intuition (subst; auto)
  | intuition (subst; auto) ].

Section Schedule.

Variable normalize : list Q → Exn + list Q.
Variables nodes_list : list string.
Variable probs : list Q.

(** The normalizer returns as many values as it was given. *)
Hypothesis normalize_zeros :
  normalize (repeat (0 : Q) (length nodes_list)) = inr probs.
Hypothesis normalize_length : length probs = length nodes_list.
Hypothesis nodes_nonempty : nodes_list ≠ [].

Local Abbreviation M := (popped_dist nodes_list probs).
Local Abbreviation settled := (settled_at M).
Local Abbreviation covered := (covered_at M).

Lemma covered_none (s : Schedule) : covered (λ _ _ _, False) s s.
Proof. intros o c f. split; [done|done]. Qed.

Lemma covered_iff (V V' : string → string → string → Prop) (s0 s : Schedule) :
  (∀ o c f, V o c f ↔ V' o c f) → covered V s0 s → covered V' s0 s.
Proof.
  intros Hiff Hc o c f. destruct (Hc o c f) as [H1 H2].
  split; intros H'; [apply H1 | apply H2]; by rewrite Hiff.
Qed.

Lemma covered_trans (V1 V2 : string → string → string → Prop)
    (s0 s1 s2 : Schedule) :
  (∀ o c f, Decision (V2 o c f)) →
  covered V1 s0 s1 → covered V2 s1 s2 →
  covered (λ o c f, V1 o c f ∨ V2 o c f) s0 s2.
Proof.
  intros Hdec Hc1 Hc2 o c f.
  destruct (Hc1 o c f) as [H1a H1b], (Hc2 o c f) as [H2a H2b].
  split.
  - intros [Hv|Hv]; [|by apply H2a].
    destruct (decide (V2 o c f)); [by apply H2a|].
    rewrite H2b by done. by apply H1a.
  - intros Hn. rewrite H2b, H1b; [done| |]; intros ?; apply Hn; auto.
Qed.

Lemma covered_settled (V : string → string → string → Prop) (s0 s : Schedule) :
  (∀ o c f, Decision (V o c f)) →
  settled s0 → covered V s0 s → settled s.
Proof.
  intros Hdec Hs Hc o c f. destruct (Hc o c f) as [H1 H2].
  destruct (decide (V o c f)); [right; by apply H1|].
  rewrite H2 by done. apply Hs.
Qed.

Lemma sf_body_covered (o c f : string) (s : Schedule) :
  settled s →
  ∃ s', sf_body normalize nodes_list o c f s = inr s' ∧
        covered (λ o' c' f', (o', c', f') = (o, c, f)) s s'.
Proof.
  intros Hs. unfold sf_body. rewrite normalize_zeros.
  rewrite inner_loop_exact by done.
  eexists; split; [done|]. intros o' c' f'. split.
  - intros [= -> -> ->]. rewrite set_pairs_dist_same.
    + f_equal. destruct (Hs o c f) as [->| ->]; simpl; [done|].
      apply insert_pairs_idem.
    + destruct nodes_list as [|n ns]; [done|].
      destruct (reverse probs) as [|v vs] eqn:Hr; [|done].
      apply (f_equal length) in Hr. rewrite length_reverse in Hr.
      simpl in *. lia.
  - intros Hne. by apply set_pairs_dist_other.
Qed.

Lemma sf_loop_covered (o c : string) (sf_list : list string) (s0 : Schedule) :
  settled s0 →
  ∃ s, for_each (sf_body normalize nodes_list o c) sf_list s0 = inr s ∧
       covered (λ o' c' f', o' = o ∧ c' = c ∧ f' ∈ sf_list) s0 s.
Proof.
  intros Hs0.
  apply (for_each_invariant _
    (λ seen s, covered (λ o' c' f', o' = o ∧ c' = c ∧ f' ∈ seen) s0 s)).
  - eapply covered_iff; [|apply covered_none].
    intros o' c' f'. rewrite elem_of_nil. tauto.
  - intros seen f s Hc.
    destruct (sf_body_covered o c f s) as (s' & Hb & Hc').
    { refine (covered_settled _ s0 s _ Hs0 Hc); intros; apply _. }
    exists s'. split; [done|].
    eapply covered_iff;
      [|refine (covered_trans _ _ s0 s s' _ Hc Hc'); intros; apply _].
    intros o' c' f'. cbn beta. rewrite elem_of_app, list_elem_of_singleton.
    pair_cases.
Qed.

Lemma sfc_loop_covered (o : string) (sf_list sfc_list : list string)
    (s0 : Schedule) :
  settled s0 →
  ∃ s, for_each (λ sfc, for_each (sf_body normalize nodes_list o sfc) sf_list)
         sfc_list s0 = inr s ∧
       covered (λ o' c' f', o' = o ∧ c' ∈ sfc_list ∧ f' ∈ sf_list) s0 s.
Proof.
  intros Hs0.
  apply (for_each_invariant _
    (λ seen s, covered (λ o' c' f', o' = o ∧ c' ∈ seen ∧ f' ∈ sf_list) s0 s)).
  - eapply covered_iff; [|apply covered_none].
    intros o' c' f'. rewrite elem_of_nil. tauto.
  - intros seen c s Hc.
    destruct (sf_loop_covered o c sf_list s) as (s' & Hb & Hc').
    { refine (covered_settled _ s0 s _ Hs0 Hc); intros; apply _. }
    exists s'. split; [done|].
    eapply covered_iff;
      [|refine (covered_trans _ _ s0 s s' _ Hc Hc'); intros; apply _].
    intros o' c' f'. cbn beta. rewrite elem_of_app, list_elem_of_singleton.
    pair_cases.
Qed.

Lemma node_loop_covered (outer sf_list sfc_list : list string) (s0 : Schedule) :
  settled s0 →
  ∃ s, for_each (λ outer_node,
         for_each (λ sfc,
           for_each (sf_body normalize nodes_list outer_node sfc) sf_list)
           sfc_list) outer s0 = inr s ∧
       covered (λ o' c' f', o' ∈ outer ∧ c' ∈ sfc_list ∧ f' ∈ sf_list) s0 s.
Proof.
  intros Hs0.
  apply (for_each_invariant _
    (λ seen s, covered (λ o' c' f', o' ∈ seen ∧ c' ∈ sfc_list ∧ f' ∈ sf_list) s0 s)).
  - eapply covered_iff; [|apply covered_none].
    intros o' c' f'. rewrite elem_of_nil. tauto.
  - intros seen o s Hc.
    destruct (sfc_loop_covered o sf_list sfc_list s) as (s' & Hb & Hc').
    { refine (covered_settled _ s0 s _ Hs0 Hc); intros; apply _. }
    exists s'. split; [done|].
    eapply covered_iff;
      [|refine (covered_trans _ _ s0 s s' _ Hc Hc'); intros; apply _].
    intros o' c' f'. cbn beta. rewrite elem_of_app, list_elem_of_singleton.
    pair_cases.
Qed.

(** [get_schedule] returns, and its result holds the final distribution
    exactly at the triples of origin, chain and function. *)
Lemma get_schedule_covered (sf_list sfc_list : list string) :
  ∃ s, get_schedule normalize nodes_list sf_list sfc_list = inr s ∧
       ∀ o c f,
         schedule_dist s o c f
         = if decide (o ∈ nodes_list ∧ c ∈ sfc_list ∧ f ∈ sf_list)
           then Some (popped_dist nodes_list probs) else None.
Proof.
  destruct (node_loop_covered nodes_list sf_list sfc_list ∅) as (s & Hg & Hc).
  { intros o c f. left. unfold schedule_dist. by rewrite lookup_empty. }
  exists s. split; [exact Hg|]. intros o c f.
  destruct (Hc o c f) as [H1 H2]. case_decide.
  - by apply H1.
  - rewrite H2 by done. unfold schedule_dist. by rewrite lookup_empty.
Qed.

End Schedule.

Lemma get_schedule_no_nodes (normalize : list Q → Exn + list Q)
    (sf_list sfc_list : list string) :
  get_schedule normalize [] sf_list sfc_list = inr ∅.
Proof. reflexivity. Qed.

(** ** Which value a destination receives *)

Lemma insert_pairs_app (d : Dist) (ps qs : list (string * Q)) :
  insert_pairs d (ps ++ qs) = insert_pairs (insert_pairs d ps) qs.
Proof. apply foldl_app. Qed.

Lemma set_pairs_app (o c f : string) (s : Schedule) (ps qs : list (string * Q)) :
  set_pairs o c f s (ps ++ qs) = set_pairs o c f (set_pairs o c f s ps) qs.
Proof. apply foldl_app. Qed.

Lemma insert_pairs_lookup_notin (d : Dist) (ps : list (string * Q)) (k : string) :
  k ∉ ps.*1 → insert_pairs d ps !! k = d !! k.
Proof.
  revert d. induction ps as [|[n v] ps IH]; intros d Hk; [done|].
  unfold insert_pairs in *. cbn [foldl fst snd].
  rewrite fmap_cons in Hk. apply not_elem_of_cons in Hk as [Hne Hk].
  rewrite IH by done. by rewrite lookup_insert_ne.
Qed.

Lemma elem_of_zip_fst (ns : list string) (vs : list Q) (k : string) :
  k ∈ (zip ns vs).*1 → k ∈ ns.
Proof.
  revert vs. induction ns as [|n ns IH]; intros [|v vs]; simpl;
    try (by intros ?%elem_of_nil).
  rewrite !elem_of_cons. intros [->|Hin]; [by left|right; eauto].
Qed.

(** The value stored for a node is the one paired with its last
    occurrence. *)
Lemma insert_pairs_lookup_last (ns : list string) (vs : list Q) (d : Dist)
    (i : nat) (k : string) (v : Q) :
  ns !! i = Some k → vs !! i = Some v →
  (∀ j, (i < j)%nat → ns !! j ≠ Some k) →
  insert_pairs d (zip ns vs) !! k = Some v.
Proof.
  revert vs d i. induction ns as [|n ns IH]; intros vs d i Hn Hv Hlast; [done|].
  destruct vs as [|v0 vs]; [done|].
  unfold insert_pairs in *. cbn [zip zip_with foldl fst snd].
  destruct i as [|i]; simpl in Hn, Hv.
  - injection Hn as ->. injection Hv as ->.
    fold (insert_pairs (<[k:=v]> d) (zip ns vs)).
    rewrite insert_pairs_lookup_notin; [by rewrite lookup_insert_eq|].
    intros Hin%elem_of_zip_fst. apply list_elem_of_lookup in Hin as [j Hj].
    apply (Hlast (S j)); [lia | done].
  - apply (IH vs _ i); [done|done|].
    intros j Hij. apply (Hlast (S j)). lia.
Qed.

Lemma insert_pairs_const_lookup (c : Q) (ns : list string) (d : Dist) (k : string) :
  insert_pairs d (zip ns (repeat c (length ns))) !! k
  = if decide (k ∈ ns) then Some c else d !! k.
Proof.
  revert d. induction ns as [|n ns IH]; intros d.
  - rewrite decide_False by apply not_elem_of_nil. done.
  - unfold insert_pairs in *. cbn [length repeat zip zip_with foldl fst snd].
    rewrite IH. destruct (decide (k ∈ ns)) as [Hin|Hnin].
    + rewrite decide_True by (by apply elem_of_cons; right). done.
    + destruct (decide (k = n)) as [->|Hne].
      * rewrite decide_True by (by apply elem_of_cons; left).
        by rewrite lookup_insert_eq.
      * rewrite decide_False by (by intros [?|?]%elem_of_cons).
        by rewrite lookup_insert_ne.
Qed.

Lemma reverse_repeat {A} (c : A) (n : nat) : reverse (repeat c n) = repeat c n.
Proof.
  induction n as [|n IH]; [done|].
  cbn [repeat]. rewrite reverse_cons, IH.
  clear IH. induction n as [|n IH]; [done|]. simpl. by rewrite IH.
Qed.

Lemma popped_dist_uniform_lookup (c : Q) (ns : list string) (k : string) :
  popped_dist ns (repeat c (length ns)) !! k
  = if decide (k ∈ ns) then Some c else None.
Proof.
  unfold popped_dist. rewrite reverse_repeat.
  fold (insert_pairs ∅ (zip ns (repeat c (length ns)))).
  rewrite insert_pairs_const_lookup. by rewrite lookup_empty.
Qed.

(** ** The sum of a distribution *)

Lemma dist_total_insert (d : Dist) (k : string) (v : Q) :
  d !! k = None → (dist_total (<[k := v]> d) == v + dist_total d)%Q.
Proof.
  intros Hk. unfold dist_total.
  apply (map_fold_insert Qeq (λ _ v acc, (v + acc)%Q)); [| |done].
  - intros _ z x y Hxy. by rewrite Hxy.
  - intros. ring.
Qed.

Lemma dist_total_const (c : Q) (d : Dist) :
  (∀ k v, d !! k = Some v → v = c) →
  (dist_total d == inject_Z (Z.of_nat (size d)) * c)%Q.
Proof.
  induction d as [|k v d Hk IH] using map_ind; intros Hall.
  - unfold dist_total. rewrite map_fold_empty, map_size_empty. simpl. ring.
  - rewrite dist_total_insert by done.
    rewrite map_size_insert_None by done.
    rewrite IH.
    + rewrite (Hall k v) by apply lookup_insert_eq.
      rewrite Nat2Z.inj_succ. unfold Z.succ. rewrite inject_Z_plus. ring.
    + intros k' v' Hk'. apply (Hall k').
      rewrite lookup_insert_ne; [done|]. intros ->. congruence.
Qed.

Lemma uniform_share_total (n : nat) :
  (0 < n)%nat → (inject_Z (Z.of_nat n) * (1 # Pos.of_nat n) == 1)%Q.
Proof.
  intros Hn. destruct n as [|n]; [lia|].
  unfold Qeq, Qmult, inject_Z. cbn [Qnum Qden].
  rewrite Pos.mul_1_l, <- Pos.of_nat_succ, Zpos_P_of_succ_nat, Nat2Z.inj_succ. lia.
Qed.

(** ** The claims about the builders *)

(** C4, as amended.  [get_placement] maps every node of the node list to
    the full service-function list (the very list it was given, hence
    equal to it as a set), its keys are the nodes of the list, and it has
    one entry per distinct identifier; when the identifiers are pairwise
    distinct that is the length of the node list. *)
Theorem get_placement_every_node (nodes_list sf_list : list string) :
  (∀ n, n ∈ nodes_list → get_placement nodes_list sf_list !! n = Some sf_list) ∧
  dom (get_placement nodes_list sf_list) = list_to_set nodes_list ∧
  size (get_placement nodes_list sf_list) = length (remove_dups nodes_list) ∧
  (NoDup nodes_list → size (get_placement nodes_list sf_list) = length nodes_list).
Proof.
  split; [|split; [|split]].
  - intros n Hn. rewrite get_placement_lookup. by rewrite decide_True.
  - apply get_placement_dom.
  - apply get_placement_size.
  - intros Hnd. rewrite <- size_dom, get_placement_dom.
    by apply size_list_to_set.
Qed.

Lemma get_placement_every_node_witness :
  ("n2" ∈ ["n1"; "n2"; "n3"] ∧ NoDup ["n1"; "n2"; "n3"]) ∧
  get_placement ["n1"; "n2"; "n3"] ["fw"; "ids"] !! "n2" = Some ["fw"; "ids"] ∧
  size (get_placement ["n1"; "n2"; "n3"] ["fw"; "ids"]) = 3%nat.
Proof.
  assert (Hin : "n2" ∈ ["n1"; "n2"; "n3"]) by (right; left).
  assert (Hnd : NoDup ["n1"; "n2"; "n3"]) by (apply (bool_decide_unpack _); vm_compute; exact I).
  destruct (get_placement_every_node ["n1"; "n2"; "n3"] ["fw"; "ids"])
    as (Hall & _ & _ & Hsize).
  split; [done|]. split; [by apply Hall | by apply Hsize].
Defined.

(** C4, as stated, fails on a node list that repeats an identifier: the
    placement then has fewer entries than the list has elements. *)
Lemma get_placement_repeated_node :
  size (get_placement ["n1"; "n1"] ["fw"]) ≠ length ["n1"; "n1"].
Proof. vm_compute. discriminate. Qed.

(** C3, as amended.  [get_schedule] has no guard for an empty node list:
    whatever the normalizer does, it is not called, nothing is raised and
    the empty schedule is returned. *)
Theorem get_schedule_zero_nodes (normalize : list Q → Exn + list Q)
    (sf_list sfc_list : list string) :
  get_schedule normalize [] sf_list sfc_list = inr ∅ ∧
  ∀ o c f, schedule_dist (∅ : Schedule) o c f = None.
Proof.
  split; [reflexivity|]. intros o c f. unfold schedule_dist.
  by rewrite lookup_empty.
Qed.

(** C3, as stated, fails: with zero nodes, and a normalizer that rejects
    the empty list, the schedule builder still returns normally. *)
Lemma get_schedule_zero_nodes_not_guarded :
  get_schedule uniform_normalizer [] ["fw"] ["sfc_1"] = inr ∅.
Proof. reflexivity. Qed.

(** C8.  If the normalizer returns as many values as it was given, no
    [pop] of [get_schedule] meets an empty list: the builder returns, and
    each run of the innermost loop takes exactly the values of the list,
    leaving it empty.  Repeated identifiers are allowed. *)
Theorem get_schedule_pop_never_fails (normalize : list Q → Exn + list Q)
    (nodes_list sf_list sfc_list : list string) (probs : list Q) :
  normalize (repeat (0 : Q) (length nodes_list)) = inr probs →
  length probs = length nodes_list →
  (∃ s, get_schedule normalize nodes_list sf_list sfc_list = inr s) ∧
  (∀ o c f s, ∃ s', inner_loop o c f nodes_list probs s = inr (s', [])).
Proof.
  intros Hzeros Hlen. split.
  - destruct (decide (nodes_list = [])) as [->|Hne].
    + exists ∅. apply get_schedule_no_nodes.
    + destruct (get_schedule_covered normalize nodes_list probs
                  Hzeros Hlen Hne sf_list sfc_list) as (s & Hs & _).
      by exists s.
  - intros o c f s. eexists. by apply inner_loop_exact.
Qed.

Lemma get_schedule_pop_never_fails_witness :
  (uniform_normalizer (repeat (0 : Q) (length ["n1"; "n2"; "n1"]))
     = inr [(1 # 3)%Q; (1 # 3)%Q; (1 # 3)%Q] ∧
   length [(1 # 3)%Q; (1 # 3)%Q; (1 # 3)%Q] = length ["n1"; "n2"; "n1"]) ∧
  (∃ s, get_schedule uniform_normalizer ["n1"; "n2"; "n1"] ["fw"] ["sfc_1"] = inr s) ∧
  (∀ o c f s, ∃ s',
     inner_loop o c f ["n1"; "n2"; "n1"] [(1 # 3)%Q; (1 # 3)%Q; (1 # 3)%Q] s
     = inr (s', [])).
Proof.
  split; [split; reflexivity|].
  apply (get_schedule_pop_never_fails uniform_normalizer
           ["n1"; "n2"; "n1"] ["fw"] ["sfc_1"]
           [(1 # 3)%Q; (1 # 3)%Q; (1 # 3)%Q]); reflexivity.
Defined.

(** C9.  [get_schedule] hands out the normalized list from its end: for
    an origin, a chain and a function of the lists, the destination at
    position [i] of the node list is given the element at index
    [len(nodes) - 1 - i] of the normalized list.  That is the value the
    schedule holds for it when the iteration for position [i] is over, and
    it is the value of the returned schedule unless the same identifier
    occurs again further on (never so when identifiers are distinct). *)
Theorem get_schedule_pops_in_reverse (normalize : list Q → Exn + list Q)
    (nodes_list sf_list sfc_list : list string) (probs : list Q)
    (o c f : string) (i : nat) (n : string) :
  normalize (repeat (0 : Q) (length nodes_list)) = inr probs →
  length probs = length nodes_list →
  o ∈ nodes_list → c ∈ sfc_list → f ∈ sf_list →
  nodes_list !! i = Some n →
  ∃ v, probs !! (length nodes_list - 1 - i)%nat = Some v ∧
    (∀ s, ∃ s' rest,
       inner_loop o c f (take (S i) nodes_list) probs s = inr (s', rest) ∧
       schedule_get s' o c f n = Some v) ∧
    ((∀ j, (i < j)%nat → nodes_list !! j ≠ Some n) →
     ∃ s, get_schedule normalize nodes_list sf_list sfc_list = inr s ∧
          schedule_get s o c f n = Some v).
Proof.
  intros Hzeros Hlen Ho Hc Hf Hn.
  assert (Hi : (i < length nodes_list)%nat) by (by eapply lookup_lt_Some).
  assert (Hrev : reverse probs !! i = probs !! (length nodes_list - 1 - i)%nat).
  { rewrite reverse_lookup by lia. f_equal. lia. }
  destruct (lookup_lt_is_Some_2 (reverse probs) i) as [v Hv].
  { rewrite length_reverse. lia. }
  exists v. split; [by rewrite <- Hrev|]. split.
  - intros s.
    assert (Hsplit : probs = reverse (drop (S i) (reverse probs))
                             ++ reverse (take (S i) (reverse probs))).
    { rewrite <- reverse_app, take_drop. by rewrite reverse_involutive. }
    pose proof (inner_loop_reverse o c f (take (S i) nodes_list)
                  (take (S i) (reverse probs))
                  (reverse (drop (S i) (reverse probs))) s) as Hloop.
    rewrite <- Hsplit in Hloop. rewrite Hloop.
    2:{ rewrite !length_take, length_reverse. lia. }
    do 2 eexists. split; [done|].
    rewrite (take_S_r nodes_list i n), (take_S_r (reverse probs) i v) by done.
    rewrite zip_with_app.
    2:{ rewrite !length_take, length_reverse. lia. }
    rewrite set_pairs_app. unfold set_pairs at 1. cbn [zip_with foldl fst snd].
    unfold schedule_get. rewrite schedule_set_dist_same.
    apply lookup_insert_eq.
  - intros Hlast.
    assert (Hne : nodes_list ≠ []) by (intros ->; by apply elem_of_nil in Ho).
    destruct (get_schedule_covered normalize nodes_list probs
                Hzeros Hlen Hne sf_list sfc_list) as (s & Hs & Hd).
    exists s. split; [done|].
    unfold schedule_get. rewrite Hd, decide_True by done.
    by apply (insert_pairs_lookup_last nodes_list (reverse probs) ∅ i).
Qed.

Lemma get_schedule_pops_in_reverse_witness :
  (uniform_normalizer (repeat (0 : Q) (length ["n1"; "n2"; "n3"]))
     = inr [(1 # 3)%Q; (1 # 3)%Q; (1 # 3)%Q] ∧
   length [(1 # 3)%Q; (1 # 3)%Q; (1 # 3)%Q] = length ["n1"; "n2"; "n3"] ∧
   "n1" ∈ ["n1"; "n2"; "n3"] ∧ "sfc_1" ∈ ["sfc_1"] ∧ "fw" ∈ ["fw"] ∧
   ["n1"; "n2"; "n3"] !! 1%nat = Some "n2") ∧
  ∃ v, [(1 # 3)%Q; (1 # 3)%Q; (1 # 3)%Q] !! (length ["n1"; "n2"; "n3"] - 1 - 1)%nat
       = Some v ∧
    (∀ s, ∃ s' rest,
       inner_loop "n1" "sfc_1" "fw" (take 2 ["n1"; "n2"; "n3"])
         [(1 # 3)%Q; (1 # 3)%Q; (1 # 3)%Q] s = inr (s', rest) ∧
       schedule_get s' "n1" "sfc_1" "fw" "n2" = Some v) ∧
    ((∀ j, (1 < j)%nat → ["n1"; "n2"; "n3"] !! j ≠ Some "n2") →
     ∃ s, get_schedule uniform_normalizer ["n1"; "n2"; "n3"] ["fw"] ["sfc_1"] = inr s ∧
          schedule_get s "n1" "sfc_1" "fw" "n2" = Some v).
Proof.
  assert (H1 : "n1" ∈ ["n1"; "n2"; "n3"]) by left.
  assert (H2 : "sfc_1" ∈ ["sfc_1"]) by left.
  assert (H3 : "fw" ∈ ["fw"]) by left.
  split; [repeat split; done|].
  apply (get_schedule_pops_in_reverse uniform_normalizer
           ["n1"; "n2"; "n3"] ["fw"] ["sfc_1"]
           [(1 # 3)%Q; (1 # 3)%Q; (1 # 3)%Q] "n1" "sfc_1" "fw" 1 "n2");
    done.
Defined.

(** C1.  For a non-empty node list with distinct identifiers, and a
    normalizer that turns the [n] zeros it is given into [n] values equal
    to [1/n], [get_schedule] returns a schedule that maps each triple of
    an origin node, a chain and a function of the lists to a distribution
    with exactly [len(nodes)] entries, one per destination node, each
    equal to [1/len(nodes)], which sum to 1 (so within [1e-9] of it). *)
Theorem get_schedule_uniform (normalize : list Q → Exn + list Q)
    (nodes_list sf_list sfc_list : list string) :
  nodes_list ≠ [] →
  NoDup nodes_list →
  normalize (repeat (0 : Q) (length nodes_list))
    = inr (repeat (1 # Pos.of_nat (length nodes_list))%Q (length nodes_list)) →
  ∃ s, get_schedule normalize nodes_list sf_list sfc_list = inr s ∧
    ∀ o c f, o ∈ nodes_list → c ∈ sfc_list → f ∈ sf_list →
      ∃ d, schedule_dist s o c f = Some d ∧
        size d = length nodes_list ∧
        dom d = list_to_set nodes_list ∧
        (∀ n, n ∈ nodes_list →
              d !! n = Some (1 # Pos.of_nat (length nodes_list))%Q) ∧
        (dist_total d == 1)%Q ∧
        (Qabs (dist_total d - 1) <= 1 # 1000000000)%Q.
Proof.
  intros Hne Hnd Hzeros.
  destruct (get_schedule_covered normalize nodes_list _ Hzeros
              (repeat_length _ _) Hne sf_list sfc_list) as (s & Hs & Hd).
  exists s. split; [done|]. intros o c f Ho Hc Hf.
  eexists. split; [by rewrite Hd, decide_True|].
  set (share := (1 # Pos.of_nat (length nodes_list))%Q).
  set (d := popped_dist nodes_list (repeat share (length nodes_list))).
  assert (Hlook : ∀ k, d !! k = if decide (k ∈ nodes_list) then Some share else None)
    by apply popped_dist_uniform_lookup.
  assert (Hdom : dom d = list_to_set nodes_list).
  { apply set_eq. intros k. rewrite elem_of_dom, Hlook, elem_of_list_to_set.
    destruct (decide (k ∈ nodes_list)); split; intros H'; done. }
  assert (Hsize : size d = length nodes_list).
  { rewrite <- size_dom, Hdom. by apply size_list_to_set. }
  assert (Htotal : (dist_total d == 1)%Q).
  { rewrite (dist_total_const share).
    - rewrite Hsize. apply uniform_share_total.
      destruct nodes_list; [done | simpl; lia].
    - intros k v. rewrite Hlook. by case_decide; intros [= <-]. }
  repeat split; try done.
  - intros k Hk. by rewrite Hlook, decide_True.
  - rewrite Htotal. done.
Qed.

Lemma get_schedule_uniform_witness :
  (["n1"; "n2"; "n3"] ≠ [] ∧ NoDup ["n1"; "n2"; "n3"] ∧
   uniform_normalizer (repeat (0 : Q) (length ["n1"; "n2"; "n3"]))
     = inr (repeat (1 # Pos.of_nat (length ["n1"; "n2"; "n3"]))%Q
              (length ["n1"; "n2"; "n3"]))) ∧
  ∃ s, get_schedule uniform_normalizer ["n1"; "n2"; "n3"] ["fw"; "ids"] ["sfc_1"]
       = inr s ∧
    ∀ o c f, o ∈ ["n1"; "n2"; "n3"] → c ∈ ["sfc_1"] → f ∈ ["fw"; "ids"] →
      ∃ d, schedule_dist s o c f = Some d ∧
        size d = length ["n1"; "n2"; "n3"] ∧
        dom d = list_to_set ["n1"; "n2"; "n3"] ∧
        (∀ n, n ∈ ["n1"; "n2"; "n3"] →
              d !! n = Some (1 # Pos.of_nat (length ["n1"; "n2"; "n3"]))%Q) ∧
        (dist_total d == 1)%Q ∧
        (Qabs (dist_total d - 1) <= 1 # 1000000000)%Q.
Proof.
  assert (Hnd : NoDup ["n1"; "n2"; "n3"])
    by (apply (bool_decide_unpack _); vm_compute; exact I).
  split; [repeat split; done|].
  apply (get_schedule_uniform uniform_normalizer
           ["n1"; "n2"; "n3"] ["fw"; "ids"] ["sfc_1"]); done.
Defined.

End BuildersFacts.

(** * Properties of paths and of the file system without links *)

Module FlatFileSystemFacts.
Import Paths FlatFileSystem.

Lemma rsplit_None (c : ascii) (s : string) :
  rsplit c s = None ↔ has_char c s = false.
Proof.
  induction s as [|a r IH]; simpl; [done|].
  destruct (rsplit c r) as [[pre suf]|].
  - split; [done|]. intros [_ Hr]%orb_false_iff.
    by apply IH in Hr.
  - destruct (Ascii.eqb a c); simpl; [done|]. split; [|done].
    intros _. by apply IH.
Qed.

Lemma rsplit_suffix (c : ascii) (s pre suf : string) :
  rsplit c s = Some (pre, suf) → has_char c suf = false.
Proof.
  revert pre. induction s as [|a r IH]; intros pre; simpl; [done|].
  destruct (rsplit c r) as [[pre' suf']|] eqn:Hr.
  - intros [= <- <-]. by eapply IH.
  - destruct (Ascii.eqb a c); [|done]. intros [= <- <-].
    by apply rsplit_None.
Qed.

Lemma rsplit_append (c : ascii) (t b : string) :
  has_char c b = false → rsplit c (t +:+ String c b) = Some (t, b).
Proof.
  intros Hb. induction t as [|a t IH]; simpl.
  - apply rsplit_None in Hb. rewrite Hb. by rewrite Ascii.eqb_refl.
  - by rewrite IH.
Qed.

Lemma basename_no_sep (p : string) : has_char "/" (basename p) = false.
Proof.
  unfold basename. destruct (rsplit "/" p) as [[pre suf]|] eqn:Hp.
  - by eapply rsplit_suffix.
  - by apply rsplit_None.
Qed.

(** The path built for a copy lies directly in the target directory and
    keeps the name of the source. *)
Lemma basename_join (t p : string) :
  basename (t +:+ "/" +:+ basename p) = basename p.
Proof.
  unfold basename at 1.
  change ("/" +:+ basename p) with (String "/" (basename p)).
  by rewrite rsplit_append by apply basename_no_sep.
Qed.

Lemma parent_join (t p : string) :
  parent (t +:+ "/" +:+ basename p) = Some t.
Proof.
  unfold parent.
  change ("/" +:+ basename p) with (String "/" (basename p)).
  by rewrite rsplit_append by apply basename_no_sep.
Qed.

Lemma append_inj_l (t a b : string) : t +:+ a = t +:+ b → a = b.
Proof. induction t as [|c t IH]; simpl; [done|]. intros [= H]. by apply IH. Qed.

Lemma makedirs_ok_inv (name : string) (fs fs1 : Flat) :
  makedirs name fs = inr fs1 →
  files fs1 = files fs ∧ name ∈ dirs fs1 ∧ dirs fs ⊆ dirs fs1 ∧
  (name ∉ dirs fs → ∀ a, a ∈ dir_prefixes name → a ≠ "" → a ∈ dirs fs1).
Proof.
  unfold makedirs, is_dir. case_bool_decide as Hin.
  - intros [= <-]. done.
  - case_bool_decide; [done|]. destruct (is_file fs name); [done|].
    destruct (first_below_file _ _); [done|].
    intros [= <-]. cbn [dirs files].
    split; [done|]. split; [apply elem_of_union_r, elem_of_singleton; done|].
    split; [intros a Ha; by apply elem_of_union_l, elem_of_union_l|].
    intros _ a Ha Hne. apply elem_of_union_l, elem_of_union_r.
    apply elem_of_list_to_set, list_elem_of_filter. done.
Qed.

(** An existing directory is accepted as it is. *)
Lemma makedirs_exists (name : string) (fs : Flat) :
  name ∈ dirs fs → makedirs name fs = inr fs.
Proof.
  intros Hin. unfold makedirs, is_dir. by rewrite bool_decide_eq_true_2.
Qed.

Lemma open_read_ok_inv (fs : Flat) (src data : string) :
  open_read fs src = inr data → files fs !! src = Some data.
Proof.
  unfold open_read. case_bool_decide; [done|].
  destruct (files fs !! src) as [d|]; [by intros [= ->]|].
  destruct (is_dir fs src); [done|]. by destruct (blocked fs src).
Qed.

Lemma copyfile_ok_inv (src dst : string) (fs fs' : Flat) :
  copyfile src dst fs = inr fs' →
  ∃ data, files fs !! src = Some data ∧
          fs' = {| dirs := dirs fs; files := <[dst := data]> (files fs) |}.
Proof.
  unfold copyfile. destruct (_ && _); [done|].
  destruct (open_read fs src) as [e|data] eqn:Hread; [done|].
  apply open_read_ok_inv in Hread.
  destruct (open_write fs dst); [done|].
  intros [= <-]. eauto.
Qed.

Lemma unchanged_on_error_inv (op : Flat → Exn + Flat) (fs fs' : Flat)
    (r : Exn + unit) :
  unchanged_on_error op fs = (r, fs') →
  (fs' = fs ∧ ∃ e, r = inl e) ∨ (r = inr tt ∧ op fs = inr fs').
Proof.
  unfold unchanged_on_error. destruct (op fs) as [e|fs1]; intros [= <- <-]; eauto.
Qed.

Lemma unchanged_on_error_ok (op : Flat → Exn + Flat) (fs fs' : Flat) :
  unchanged_on_error op fs = (inr tt, fs') → op fs = inr fs'.
Proof. by intros [[_ [e [=]]]|[_ ?]]%unchanged_on_error_inv. Qed.

End FlatFileSystemFacts.

(** * Properties of the run driver *)

Module DriverFacts.
Import Paths Builders Driver.

Section Traces.

Context {Ext Stats FS : Type}.

Local Abbreviation World := (World Ext Stats FS).
Local Abbreviation Event := (Event Stats).
Local Abbreviation Run := (@Run Ext Stats FS).
Local Abbreviation only := (Driver.only (Ext:=Ext) (Stats:=Stats) (FS:=FS)).
Local Abbreviation copies_last := (Driver.copies_last (Ext:=Ext) (Stats:=Stats) (FS:=FS)).

(** ** The primitives extend the trace by the event of the call *)

Lemma bind_ok_inv {A B} (m : Run A) (k : A → Run B) (w w' : World) (b : B) :
  bind m k w = Ok b w' → ∃ a w1, m w = Ok a w1 ∧ k a w1 = Ok b w'.
Proof.
  unfold bind. destruct (m w) as [a w1|e w1]; [|done]. intros Hk. eauto.
Qed.

Lemma emit_final_trace (ev : Event) (w : World) :
  trace (final_world (emit ev w)) = trace w ++ [ev].
Proof. reflexivity. Qed.

Lemma call_final_trace {A} (ev : Event) (op : ExtOp A) (w : World) :
  trace (final_world (call ev op w)) = trace w ++ [ev].
Proof.
  unfold call, bind, emit. cbn [fs ext trace].
  destruct (op (ext w) (fs w)) as [[[e|a] ext'] fs']; reflexivity.
Qed.

Lemma fs_call_final_trace (ev : Event) (op : FsOp) (w : World) :
  trace (final_world (fs_call ev op w)) = trace w ++ [ev].
Proof.
  unfold fs_call, bind, emit. cbn [fs ext trace].
  destruct (op (fs w)) as [[e|u] fs']; reflexivity.
Qed.

Lemma fs_call_ok_inv (ev : Event) (op : FsOp) (w w' : World) (u : unit) :
  fs_call ev op w = Ok u w' →
  ∃ fs', op (fs w) = (inr tt, fs') ∧
         w' = {| fs := fs'; ext := ext w; trace := trace w ++ [ev] |}.
Proof.
  unfold fs_call, bind, emit. cbn [fs ext trace].
  destruct (op (fs w)) as [[e|[]] fs']; [done|]. intros [= <-]. eauto.
Qed.

Lemma randint_final_trace (E : Env Ext Stats FS) (a b : Z) (w : World) :
  trace (final_world (randint E a b w)) = trace w ++ [ERandInt a b].
Proof.
  unfold randint, bind, emit. cbn [fs ext trace].
  destruct (random_randint E a b (ext w)); reflexivity.
Qed.

Lemma lift_pure_final_world {A} (r : Exn + A) (w : World) :
  final_world (lift_pure r w) = w.
Proof. by destruct r. Qed.

Lemma lift_pure_ok_inv {A} (r : Exn + A) (w w' : World) (a : A) :
  lift_pure r w = Ok a w' → r = inr a ∧ w' = w.
Proof. destruct r; [done|]. by intros [= -> ->]. Qed.

(** ** Computations that emit only events of one kind *)

Lemma only_ret {A} (P : Event → bool) (a : A) : only P (ret a).
Proof. intros w. exists []. by rewrite app_nil_r. Qed.

Lemma only_lift_pure {A} (P : Event → bool) (r : Exn + A) : only P (lift_pure r).
Proof. intros w. exists []. by rewrite lift_pure_final_world, app_nil_r. Qed.

Lemma only_emit (P : Event → bool) (ev : Event) : P ev = true → only P (emit ev).
Proof. intros HP w. exists [ev]. split; [done|]. by constructor. Qed.

Lemma only_call {A} (P : Event → bool) (ev : Event) (op : ExtOp A) :
  P ev = true → only P (call ev op).
Proof.
  intros HP w. exists [ev]. split; [apply call_final_trace|]. by constructor.
Qed.

Lemma only_fs_call (P : Event → bool) (ev : Event) (op : FsOp) :
  P ev = true → only P (fs_call ev op).
Proof.
  intros HP w. exists [ev]. split; [apply fs_call_final_trace|]. by constructor.
Qed.

Lemma only_randint (P : Event → bool) (E : Env Ext Stats FS) (a b : Z) :
  P (ERandInt a b) = true → only P (randint E a b).
Proof.
  intros HP w. exists [ERandInt a b].
  split; [apply randint_final_trace|]. by constructor.
Qed.

Lemma only_bind {A B} (P : Event → bool) (m : Run A) (k : A → Run B) :
  only P m → (∀ a, only P (k a)) → only P (bind m k).
Proof.
  intros Hm Hk w. destruct (Hm w) as (e1 & Ht1 & H1). unfold bind.
  destruct (m w) as [a w1|e w1]; cbn [final_world] in *.
  - destruct (Hk a w1) as (e2 & Ht2 & H2).
    exists (e1 ++ e2). split; [by rewrite Ht2, Ht1, app_assoc|].
    by apply Forall_app.
  - by exists e1.
Qed.

Lemma only_world_fun {A} (P : Event → bool) (f : World → Run A) :
  (∀ w, only P (f w)) → only P (λ w, f w w).
Proof. intros Hf w. apply (Hf w w). Qed.

(** ** The apply loop *)

Lemma filter_is_apply_cons_apply (a : SimulatorAction) (evs : list Event) :
  filter (λ ev, is_apply ev = true) (ESimApply a :: evs)
  = ESimApply a :: filter (λ ev, is_apply ev = true) evs.
Proof. by rewrite filter_cons_True. Qed.

(** Whatever the simulator answers, the loop asks it to apply the one
    action it was given, at most once per index, and exactly once per
    index when it runs to its end; it does nothing else but log. *)
Lemma apply_loop_trace (E : Env Ext Stats FS) (action : SimulatorAction)
    (indices : list Z) (w : World) :
  ∃ evs k,
    trace (final_world (apply_loop E action indices w)) = trace w ++ evs ∧
    Forall (λ ev, is_loop_event ev = true) evs ∧
    filter (λ ev, is_apply ev = true) evs = repeat (ESimApply action) k ∧
    (k ≤ length indices)%nat ∧
    (∀ w', apply_loop E action indices w = Ok tt w' → k = length indices).
Proof.
  revert w. induction indices as [|i rest IH]; intros w.
  - exists [], 0%nat. cbn. rewrite app_nil_r. repeat split; auto.
  - cbn [apply_loop]. unfold bind.
    pose proof (call_final_trace (ESimApply action)
                  (simulator_apply E action) w) as Hcall.
    destruct (call (ESimApply action) (simulator_apply E action) w)
      as [st w1|e w1]; cbn [final_world] in Hcall.
    + cbn [emit].
      set (w2 := {| fs := fs w1; ext := ext w1;
                    trace := trace w1 ++ [ELogApply (i + 1) (network_stats st)] |}).
      destruct (IH w2) as (evs & k & Ht & Hcopy & Hfilter & Hk & Hok).
      exists (ESimApply action :: ELogApply (i + 1) (network_stats st) :: evs), (S k).
      split; [|split; [|split; [|split]]].
      * rewrite Ht. subst w2. cbn [trace]. rewrite Hcall.
        by rewrite <- !app_assoc.
      * by repeat constructor.
      * rewrite filter_is_apply_cons_apply, filter_cons_False by done.
        by rewrite Hfilter.
      * simpl. lia.
      * intros w' Hw'. simpl. f_equal. by eapply Hok.
    + exists [ESimApply action], 1%nat.
      repeat split; [done | by repeat constructor | simpl; lia | done].
Qed.

(** ** Copying the input files *)

Lemma copy_input_files_ok_inv (E : Env Ext Stats FS)
    (target_dir network_path service_path sim_config_path : string)
    (w w' : World) (u : unit) :
  copy_input_files E target_dir network_path service_path sim_config_path w
    = Ok u w' →
  ∃ fs1 fs2 fs3 fs4,
    os_makedirs E target_dir (fs w) = (inr tt, fs1) ∧
    shutil_copyfile E network_path
      (target_dir +:+ "/" +:+ basename network_path) fs1 = (inr tt, fs2) ∧
    shutil_copyfile E service_path
      (target_dir +:+ "/" +:+ basename service_path) fs2 = (inr tt, fs3) ∧
    shutil_copyfile E sim_config_path
      (target_dir +:+ "/" +:+ basename sim_config_path) fs3 = (inr tt, fs4) ∧
    w' = {| fs := fs4; ext := ext w;
            trace := trace w ++
              EMakeDirs target_dir
              :: copy_events target_dir network_path service_path
                   sim_config_path |}.
Proof.
  unfold copy_input_files. intros H.
  apply bind_ok_inv in H as (u1 & w1 & H1 & H).
  apply bind_ok_inv in H as (u2 & w2 & H2 & H).
  apply bind_ok_inv in H as (u3 & w3 & H3 & H4).
  apply fs_call_ok_inv in H1 as (fs1 & Hm & ->). cbn [fs ext trace] in *.
  apply fs_call_ok_inv in H2 as (fs2 & Hc1 & ->). cbn [fs ext trace] in *.
  apply fs_call_ok_inv in H3 as (fs3 & Hc2 & ->). cbn [fs ext trace] in *.
  apply fs_call_ok_inv in H4 as (fs4 & Hc3 & ->). cbn [fs ext trace] in *.
  exists fs1, fs2, fs3, fs4. repeat split; try done.
  unfold copy_events. by rewrite <- !app_assoc.
Qed.

Lemma copy_input_files_only (E : Env Ext Stats FS)
    (target_dir network_path service_path sim_config_path : string) :
  only (λ ev, negb (is_apply ev))
    (copy_input_files E target_dir network_path service_path sim_config_path).
Proof.
  unfold copy_input_files.
  do 3 (apply only_bind; [by apply only_fs_call | intros _]).
  by apply only_fs_call.
Qed.

Lemma fs_call_ok (ev : Event) (op : FsOp) (w : World) (fs' : FS) :
  op (fs w) = (inr tt, fs') →
  fs_call ev op w
  = Ok tt {| fs := fs'; ext := ext w; trace := trace w ++ [ev] |}.
Proof.
  intros Hop. unfold fs_call, bind, emit. cbn [fs ext trace]. by rewrite Hop.
Qed.

Lemma fs_call_fail (ev : Event) (op : FsOp) (w : World) (e : Exn) (fs' : FS) :
  op (fs w) = (inl e, fs') →
  fs_call ev op w
  = Fail e {| fs := fs'; ext := ext w; trace := trace w ++ [ev] |}.
Proof.
  intros Hop. unfold fs_call, bind, emit. cbn [fs ext trace]. by rewrite Hop.
Qed.

(** A computation that starts with a call of a file-system operation
    makes that call, whatever comes of it. *)
Lemma bind_fs_call_trace {B} (ev : Event) (op : FsOp)
    (k : unit → Run B) (w : World) :
  only (λ _, true) (k tt) →
  ∃ evs, trace (final_world (bind (fs_call ev op) k w)) = trace w ++ ev :: evs.
Proof.
  intros Hk. unfold bind.
  pose proof (fs_call_final_trace ev op w) as Ht.
  destruct (fs_call ev op w) as [[] w2|e w2]; cbn [final_world] in *.
  - destruct (Hk w2) as (evs & Hevs & _). exists evs.
    by rewrite Hevs, Ht, <- app_assoc.
  - by exists [].
Qed.

(** *** With file-system operations that keep their contract *)

Section Files.

Variable E : Env Ext Stats FS.
Variable isdir : FS → string → Prop.
Variable content : FS → string → option string.
Variable samefile : FS → string → string → Prop.
Hypothesis laws : FileLaws E isdir content samefile.

(** Two paths that name different files after a copy did so before it. *)
Lemma copyfile_not_samefile (src dst : string) (r : Exn + unit) (fs fs' : FS)
    (p q : string) :
  shutil_copyfile E src dst fs = (r, fs') →
  ¬ samefile fs' p q → ¬ samefile fs p q.
Proof. intros Hc Hn Hs. apply Hn. by eapply copyfile_keeps_samefile. Qed.

(** What a call that returned has made of the file system: the target
    directory exists; each target holds the bytes of its input, unless a
    later copy went to the same file or an earlier copy went to the
    input. *)
Lemma copy_input_files_contents
    (target_dir network_path service_path sim_config_path : string)
    (w w' : World) :
  copy_input_files E target_dir network_path service_path sim_config_path w
    = Ok tt w' →
  isdir (fs w') target_dir ∧
  (¬ isdir (fs w) target_dir →
   ∀ a, a ∈ dir_prefixes target_dir → a ≠ "" → isdir (fs w') a) ∧
  is_Some (content (fs w) network_path) ∧
  is_Some (content (fs w') (target_dir +:+ "/" +:+ basename sim_config_path)) ∧
  (¬ samefile (fs w') sim_config_path
       (target_dir +:+ "/" +:+ basename network_path) →
   ¬ samefile (fs w') sim_config_path
       (target_dir +:+ "/" +:+ basename service_path) →
   content (fs w') (target_dir +:+ "/" +:+ basename sim_config_path)
   = content (fs w) sim_config_path) ∧
  (¬ samefile (fs w') service_path
       (target_dir +:+ "/" +:+ basename network_path) →
   ¬ samefile (fs w') (target_dir +:+ "/" +:+ basename service_path)
       (target_dir +:+ "/" +:+ basename sim_config_path) →
   is_Some (content (fs w) service_path) ∧
   content (fs w') (target_dir +:+ "/" +:+ basename service_path)
   = content (fs w) service_path) ∧
  (¬ samefile (fs w') (target_dir +:+ "/" +:+ basename network_path)
       (target_dir +:+ "/" +:+ basename service_path) →
   ¬ samefile (fs w') (target_dir +:+ "/" +:+ basename network_path)
       (target_dir +:+ "/" +:+ basename sim_config_path) →
   content (fs w') (target_dir +:+ "/" +:+ basename network_path)
   = content (fs w) network_path).
Proof.
  intros Hok.
  apply copy_input_files_ok_inv in Hok
    as (fs1 & fs2 & fs3 & fs4 & Hm & Hc1 & Hc2 & Hc3 & ->).
  cbn [fs ext trace].
  set (dn := target_dir +:+ "/" +:+ basename network_path) in *.
  set (ds := target_dir +:+ "/" +:+ basename service_path) in *.
  set (dc := target_dir +:+ "/" +:+ basename sim_config_path) in *.
  destruct (copyfile_copies _ _ _ _ laws _ _ _ _ Hc1) as (cn & Hn1 & Hn2).
  destruct (copyfile_copies _ _ _ _ laws _ _ _ _ Hc2) as (cs & Hs2 & Hs3).
  destruct (copyfile_copies _ _ _ _ laws _ _ _ _ Hc3) as (cc & Hcf3 & Hcf4).
  pose proof (λ p, makedirs_keeps_files _ _ _ _ laws _ _ _ _ p Hm) as Hfiles.
  pose proof (λ p, copyfile_frame _ _ _ _ laws _ _ _ _ _ p Hc1) as Hframe1.
  pose proof (λ p, copyfile_frame _ _ _ _ laws _ _ _ _ _ p Hc2) as Hframe2.
  pose proof (λ p, copyfile_frame _ _ _ _ laws _ _ _ _ _ p Hc3) as Hframe3.
  assert (Hdirs : ∀ p, isdir fs1 p → isdir fs4 p).
  { intros p Hp.
    eapply copyfile_keeps_dirs; [exact laws | exact Hc3 |].
    eapply copyfile_keeps_dirs; [exact laws | exact Hc2 |].
    eapply copyfile_keeps_dirs; [exact laws | exact Hc1 | exact Hp]. }
  split; [|split; [|split; [|split; [|split; [|split]]]]].
  - apply Hdirs. by eapply makedirs_isdir.
  - intros Hno a Ha Hne. apply Hdirs. by eapply makedirs_parents.
  - rewrite <- Hfiles, Hn1. by eexists.
  - rewrite Hcf4. by eexists.
  - intros Hdn Hds.
    apply (copyfile_not_samefile _ _ _ _ _ _ _ Hc3) in Hds.
    apply (copyfile_not_samefile _ _ _ _ _ _ _ Hc3) in Hdn.
    apply (copyfile_not_samefile _ _ _ _ _ _ _ Hc2) in Hdn.
    by rewrite Hcf4, <- Hcf3, (Hframe2 _ Hds), (Hframe1 _ Hdn), Hfiles.
  - intros Hdn Hdc.
    apply (copyfile_not_samefile _ _ _ _ _ _ _ Hc3) in Hdn.
    apply (copyfile_not_samefile _ _ _ _ _ _ _ Hc2) in Hdn.
    assert (Hs0 : content (fs w) service_path = Some cs).
    { by rewrite <- Hfiles, <- (Hframe1 _ Hdn). }
    split; [rewrite Hs0; by eexists|].
    by rewrite (Hframe3 _ Hdc), Hs3, Hs0.
  - intros Hds Hdc.
    apply (copyfile_not_samefile _ _ _ _ _ _ _ Hc3) in Hds.
    by rewrite (Hframe3 _ Hdc), (Hframe2 _ Hds), Hn2, <- Hfiles, Hn1.
Qed.

(** C10, as amended.  [copy_input_files] first calls [os.makedirs] on the
    target directory, so that a directory that exists is no error and the
    first copy is reached; it then copies the network, service and
    configuration files, in this order, to the target directory under
    their base names.  After it returns, the directory exists, with its
    intermediate directories if it was missing, and holds under the base
    name of each input the bytes of that input: of the configuration file
    unless it is itself the file an earlier copy went to, of the service
    file unless the network copy went to it or the configuration copy
    went to the same target, and of the network file unless a later copy
    went to the same target. *)
Theorem copy_input_files_copies
    (target_dir network_path service_path sim_config_path : string) (w : World) :
  (isdir (fs w) target_dir →
   ∃ evs,
     trace (final_world
       (copy_input_files E target_dir network_path service_path
          sim_config_path w))
     = trace w ++
       EMakeDirs target_dir
       :: ECopyFile network_path (target_dir +:+ "/" +:+ basename network_path)
       :: evs) ∧
  (∀ w', copy_input_files E target_dir network_path service_path
           sim_config_path w = Ok tt w' →
     trace w' = trace w ++
       [ EMakeDirs target_dir;
         ECopyFile network_path (target_dir +:+ "/" +:+ basename network_path);
         ECopyFile service_path (target_dir +:+ "/" +:+ basename service_path);
         ECopyFile sim_config_path
           (target_dir +:+ "/" +:+ basename sim_config_path) ] ∧
     isdir (fs w') target_dir ∧
     (¬ isdir (fs w) target_dir →
      ∀ a, a ∈ dir_prefixes target_dir → a ≠ "" → isdir (fs w') a) ∧
     is_Some (content (fs w) network_path) ∧
     is_Some (content (fs w')
                (target_dir +:+ "/" +:+ basename sim_config_path)) ∧
     (¬ samefile (fs w') sim_config_path
          (target_dir +:+ "/" +:+ basename network_path) →
      ¬ samefile (fs w') sim_config_path
          (target_dir +:+ "/" +:+ basename service_path) →
      content (fs w') (target_dir +:+ "/" +:+ basename sim_config_path)
      = content (fs w) sim_config_path) ∧
     (¬ samefile (fs w') service_path
          (target_dir +:+ "/" +:+ basename network_path) →
      ¬ samefile (fs w') (target_dir +:+ "/" +:+ basename service_path)
          (target_dir +:+ "/" +:+ basename sim_config_path) →
      is_Some (content (fs w) service_path) ∧
      content (fs w') (target_dir +:+ "/" +:+ basename service_path)
      = content (fs w) service_path) ∧
     (¬ samefile (fs w') (target_dir +:+ "/" +:+ basename network_path)
          (target_dir +:+ "/" +:+ basename service_path) →
      ¬ samefile (fs w') (target_dir +:+ "/" +:+ basename network_path)
          (target_dir +:+ "/" +:+ basename sim_config_path) →
      content (fs w') (target_dir +:+ "/" +:+ basename network_path)
      = content (fs w) network_path)).
Proof.
  split.
  - intros Hdir.
    destruct (makedirs_exist_ok _ _ _ _ laws _ _ Hdir) as [fs1 Hm].
    unfold copy_input_files. unfold bind at 1.
    rewrite (fs_call_ok _ _ w fs1 Hm).
    match goal with
    | |- context [bind (fs_call ?ev ?op) ?k ?w1] =>
        destruct (bind_fs_call_trace ev op k w1) as [evs Hevs];
          [apply only_bind; [by apply only_fs_call | intros _];
           by apply only_fs_call|]
    end.
    exists evs. rewrite Hevs. cbn [trace]. by rewrite <- app_assoc.
  - intros w' Hok.
    split; [|by apply copy_input_files_contents].
    apply copy_input_files_ok_inv in Hok as (? & ? & ? & ? & _ & _ & _ & _ & ->).
    reflexivity.
Qed.

End Files.

(** ** A run of [main] that returns *)

Lemma final_world_ok {A} (m : Run A) (w w' : World) (a : A) :
  m w = Ok a w' → final_world (m w) = w'.
Proof. by intros ->. Qed.

Lemma ok_trace {A} (m : Run A) (w w' : World) (a : A) (evs : list Event) :
  m w = Ok a w' →
  trace (final_world (m w)) = trace w ++ evs →
  trace w' = trace w ++ evs.
Proof. by intros ->. Qed.

Lemma resolve_seed_ok_inv (E : Env Ext Stats FS) (s : option Z) (w w' : World) (sd : Z) :
  resolve_seed E s w = Ok sd w' →
  ∃ seed_evs, trace w' = trace w ++ seed_evs ∧
    ((seed_evs = [] ∧ s = Some sd ∧ sd ≠ 0) ∨
     (seed_evs = [ERandInt 1 9999] ∧ (s = None ∨ s = Some 0) ∧
      sd = (random_randint E 1 9999 (ext w)).1)).
Proof.
  assert (Hdraw : randint E 1 9999 w = Ok sd w' →
            trace w' = trace w ++ [ERandInt 1 9999] ∧
            sd = (random_randint E 1 9999 (ext w)).1).
  { intros Hr. split.
    - by rewrite <- (final_world_ok _ _ _ _ Hr), randint_final_trace.
    - revert Hr. unfold randint, bind, emit. cbn [fs ext trace].
      destruct (random_randint E 1 9999 (ext w)). by intros [= <- _]. }
  unfold resolve_seed. destruct s as [v|].
  - case_bool_decide as Hv.
    + intros [? ?]%Hdraw. exists [ERandInt 1 9999]. subst v. auto 6.
    + intros [= <- <-]. exists []. rewrite app_nil_r. auto.
  - intros [? ?]%Hdraw. exists [ERandInt 1 9999]. auto 6.
Qed.

Lemma bind_ok {A B} (m : Run A) (k : A → Run B) (w w1 : World) (a : A) :
  m w = Ok a w1 → bind m k w = k a w1.
Proof. intros Hm. unfold bind. by rewrite Hm. Qed.

Lemma call_ok_inv {A} (ev : Event) (op : ExtOp A) (w w' : World) (a : A) :
  call ev op w = Ok a w' →
  op (ext w) (fs w) = (inr a, ext w', fs w') ∧ trace w' = trace w ++ [ev].
Proof.
  unfold call, bind, emit. cbn [fs ext trace].
  destruct (op (ext w) (fs w)) as [[[e|a'] ext'] fs']; [done|].
  by intros [= <- <-].
Qed.

(** [main] is its part before the loop, followed by the rest. *)
Lemma main_split (E : Env Ext Stats FS) (args : Args) (w : World) :
  main E args w = bind (main_before_loop E args) (main_from_loop E args) w.
Proof.
  unfold main, main_before_loop, bind, ret.
  repeat match goal with
  | |- context [match ?m ?x with Ok _ _ => _ | Fail _ _ => _ end] =>
      lazymatch m with
      | context [match _ with Ok _ _ => _ | Fail _ _ => _ end] => fail
      | _ => destruct (m x) as [? ?|? ?]; try reflexivity
      end
  end.
Qed.

(** The course of a run that returns, from the first event to the last. *)
Lemma main_ok_inv (E : Env Ext Stats FS) (args : Args) (w w' : World) :
  main E args w = Ok tt w' →
  ∃ seed_evs sd init_state nodes (ingress : list string) sched loop_evs
    (w_before w_loop w_copied : World),
    let action := {| placement := get_placement nodes (st_service_functions init_state);
                     scheduling := sched |} in
    let results_dir := results_dir_of E args sd in
    ((seed_evs = [] ∧ seed args = Some sd ∧ sd ≠ 0) ∨
     (seed_evs = [ERandInt 1 9999] ∧ (seed args = None ∨ seed args = Some 0) ∧
      sd = (random_randint E 1 9999 (ext w)).1)) ∧
    nodes_of init_state = inr nodes ∧
    get_schedule (normalize_scheduling_probabilities E) nodes
      (st_service_functions init_state) (sfcs init_state) = inr sched ∧
    Forall (λ ev, is_loop_event ev = true) loop_evs ∧
    filter (λ ev, is_apply ev = true) loop_evs
      = repeat (ESimApply action) (length (range (iterations args))) ∧
    copy_input_files E results_dir (abspath E (network args))
      (abspath E (service_functions args)) (abspath E (config args)) w_loop
      = Ok tt w_copied ∧
    trace w' = trace w ++ seed_evs ++ setup_events E args sd ++
      ESimInit sd :: ELogInit (network_stats init_state) :: loop_evs ++
      final_events E args sd (length ingress) ∧
    main_before_loop E args w = Ok (sd, ingress, action) w_before ∧
    apply_loop E action (range (iterations args)) w_before = Ok tt w_loop ∧
    create_input_file E results_dir (length ingress) "LoadBalance"
      (ext w_copied) (fs w_copied) = (inr tt, ext w', fs w').
Proof.
  unfold main. intros H.
  apply bind_ok_inv in H as (sd & w1 & H1 & H).
  apply bind_ok_inv in H as (u2 & w2 & H2 & H).
  apply bind_ok_inv in H as (u3 & w3 & H3 & H).
  apply bind_ok_inv in H as (u4 & w4 & H4 & H).
  cbv zeta in H.
  apply bind_ok_inv in H as (u5 & w5 & H5 & H).
  apply bind_ok_inv in H as (init_state & w6 & H6 & H).
  apply bind_ok_inv in H as (u7 & w7 & H7 & H).
  apply bind_ok_inv in H as (nodes & w8 & H8 & H).
  apply bind_ok_inv in H as (ingress & w9 & H9 & H).
  apply bind_ok_inv in H as (sched & w10 & H10 & H).
  apply bind_ok_inv in H as (u11 & w11 & H11 & H).
  apply bind_ok_inv in H as (u12 & w12 & H12 & H13).
  destruct u2, u3, u4, u5, u7, u11, u12.
  assert (Hbefore : main_before_loop E args w
    = Ok (sd, ingress,
          {| placement := get_placement nodes (st_service_functions init_state);
             scheduling := sched |}) w10).
  { unfold main_before_loop.
    rewrite (bind_ok _ _ _ _ _ H1). cbv beta.
    rewrite (bind_ok _ _ _ _ _ H2). cbv beta.
    rewrite (bind_ok _ _ _ _ _ H3). cbv beta.
    rewrite (bind_ok _ _ _ _ _ H4). cbv beta zeta.
    rewrite (bind_ok _ _ _ _ _ H5). cbv beta.
    rewrite (bind_ok _ _ _ _ _ H6). cbv beta.
    rewrite (bind_ok _ _ _ _ _ H7). cbv beta.
    rewrite (bind_ok _ _ _ _ _ H8). cbv beta zeta.
    rewrite (bind_ok
      (λ w0, lift_pure (get_ingress_nodes (simulator_network E (ext w0))) w0)
      _ _ _ _ H9). cbv beta zeta.
    rewrite (bind_ok _ _ _ _ _ H10). reflexivity. }
  apply resolve_seed_ok_inv in H1 as (seed_evs & T1 & Hseed).
  pose proof (ok_trace _ _ _ _ _ H2 (fs_call_final_trace _ _ _)) as T2.
  pose proof (ok_trace _ _ _ _ _ H3 (call_final_trace _ _ _)) as T3.
  pose proof (ok_trace _ _ _ _ _ H4 (emit_final_trace _ _)) as T4.
  pose proof (ok_trace _ _ _ _ _ H5 (call_final_trace _ _ _)) as T5.
  pose proof (ok_trace _ _ _ _ _ H6 (call_final_trace _ _ _)) as T6.
  pose proof (ok_trace _ _ _ _ _ H7 (emit_final_trace _ _)) as T7.
  apply lift_pure_ok_inv in H8 as (Hnodes & ->).
  apply lift_pure_ok_inv in H9 as (Hingress & ->).
  apply lift_pure_ok_inv in H10 as (Hsched & ->).
  destruct (apply_loop_trace E
    {| placement := get_placement nodes (st_service_functions init_state);
       scheduling := sched |} (range (iterations args)) w7)
    as (loop_evs & k & T11 & Hloop & Hfilter & _ & Hk).
  rewrite (final_world_ok _ _ _ _ H11) in T11.
  rewrite (Hk _ H11) in Hfilter.
  pose proof H12 as Hcopy.
  apply copy_input_files_ok_inv in H12 as (? & ? & ? & ? & _ & _ & _ & _ & ->).
  pose proof (ok_trace _ _ _ _ _ H13 (call_final_trace _ _ _)) as T13.
  cbn [trace] in T13.
  apply call_ok_inv in H13 as [Hcreate _].
  exists seed_evs, sd, init_state, nodes, ingress, sched, loop_evs, w7, w11.
  eexists. cbv zeta.
  split; [exact Hseed|]. split; [exact Hnodes|]. split; [exact Hsched|].
  split; [exact Hloop|]. split; [exact Hfilter|]. split; [exact Hcopy|].
  split; [|by repeat split].
  rewrite T13, T11, T7, T6, T5, T4, T3, T2, T1.
  unfold setup_events, final_events, copy_events.
  rewrite <- !app_assoc. reflexivity.
Qed.

Lemma filter_loop_events (P : Event → bool) (evs : list Event) :
  (∀ ev, is_loop_event ev = true → P ev = false) →
  Forall (λ ev, is_loop_event ev = true) evs →
  filter (λ ev, P ev = true) evs = [].
Proof.
  intros HP Hall. induction Hall as [|ev evs Hev _ IH]; [done|].
  rewrite filter_cons_False; [done|]. by rewrite (HP ev Hev).
Qed.

Lemma length_range (n : Z) : length (range n) = Z.to_nat n.
Proof. apply length_seqZ. Qed.

(** Filters of event lists whose elements are known. *)
Ltac filter_events :=
  repeat first
    [ rewrite filter_app
    | rewrite filter_nil
    | rewrite filter_cons_True by reflexivity
    | rewrite filter_cons_False by (intros Hev; discriminate Hev) ].

Lemma filter_seed_events (P : Event → bool) (seed_evs : list Event) :
  P (ERandInt 1 9999) = false →
  seed_evs = [] ∨ seed_evs = [ERandInt 1 9999] →
  filter (λ ev, P ev = true) seed_evs = [].
Proof.
  intros HP [-> | ->]; [done|].
  rewrite filter_cons_False; [done|]. by rewrite HP.
Qed.

(** C5.  A run with [N >= 0] iterations that returns has called the
    simulator's [apply] exactly [N] times, each time with the same action:
    the pair of the placement and the schedule built from the state that
    [init] returned, whose call precedes all calls of [apply]. *)
Theorem main_applies_same_action (E : Env Ext Stats FS) (args : Args) (w w' : World) :
  (0 ≤ iterations args)%Z →
  main E args w = Ok tt w' →
  ∃ sd (init_state : SimState Stats) nodes sched (pre post : list Event),
    let action := {| placement := get_placement nodes (st_service_functions init_state);
                     scheduling := sched |} in
    nodes_of init_state = inr nodes ∧
    get_schedule (normalize_scheduling_probabilities E) nodes
      (st_service_functions init_state) (sfcs init_state) = inr sched ∧
    trace w' = trace w ++ pre ++ ESimInit sd :: post ∧
    filter (λ ev, is_apply ev = true) pre = [] ∧
    filter (λ ev, is_apply ev = true) post
      = repeat (ESimApply action) (Z.to_nat (iterations args)) ∧
    Z.of_nat (length (filter (λ ev, is_apply ev = true) post)) = iterations args.
Proof.
  intros HN Hok.
  apply main_ok_inv in Hok
    as (seed_evs & sd & init_state & nodes & ingress & sched & loop_evs
        & w_before & w_loop & w_copied
        & Hseed & Hnodes & Hsched & Hloop & Hfilter & _ & Ht & _).
  cbv zeta in Hfilter. rewrite length_range in Hfilter.
  exists sd, init_state, nodes, sched, (seed_evs ++ setup_events E args sd),
    (ELogInit (network_stats init_state) :: loop_evs
       ++ final_events E args sd (length ingress)).
  cbv zeta.
  assert (Hpost : filter (λ ev : Event, is_apply ev = true)
            (ELogInit (network_stats init_state) :: loop_evs
               ++ final_events E args sd (length ingress))
          = repeat (ESimApply {| placement :=
                                   get_placement nodes (st_service_functions init_state);
                                 scheduling := sched |})
              (Z.to_nat (iterations args))).
  { unfold final_events, copy_events. cbn [app].
    rewrite filter_cons_False by (intros Hev; discriminate Hev).
    rewrite filter_app, Hfilter. filter_events. by rewrite app_nil_r. }
  split; [exact Hnodes|]. split; [exact Hsched|]. split; [|split; [|split]].
  - rewrite Ht, <- app_assoc. reflexivity.
  - rewrite filter_app, (filter_seed_events is_apply seed_evs); [|done|tauto].
    unfold setup_events. by filter_events.
  - exact Hpost.
  - rewrite Hpost, repeat_length. lia.
Qed.

(** C6.  A run with zero iterations that returns has called the
    simulator's [init] once and its [apply] not at all, and has copied the
    three input files into the results directory: from the world
    [w_loop] that the part of [main] before the loop has made of the
    initial one, [copy_input_files] has run and returned, its three
    copies are the only ones of the run, the results directory exists in
    the world [w_copied] it has left and holds the bytes of the inputs
    under their base names (where no two of the copies met in one file),
    and the final file system is what [create_input_file] has made of
    that one. *)
Theorem main_zero_iterations (E : Env Ext Stats FS)
    (isdir : FS → string → Prop) (content : FS → string → option string)
    (samefile : FS → string → string → Prop)
    (args : Args) (w w' : World) :
  FileLaws E isdir content samefile →
  iterations args = 0%Z →
  main E args w = Ok tt w' →
  ∃ sd (ingress : list string) (action : SimulatorAction) (evs : list Event)
    (w_loop w_copied : World),
    trace w' = trace w ++ evs ∧
    filter (λ ev, is_init ev = true) evs = [ESimInit sd] ∧
    filter (λ ev, is_apply ev = true) evs = [] ∧
    filter (λ ev, is_copy ev = true) evs
      = copy_events (results_dir_of E args sd) (abspath E (network args))
          (abspath E (service_functions args)) (abspath E (config args)) ∧
    main_before_loop E args w = Ok (sd, ingress, action) w_loop ∧
    copy_input_files E (results_dir_of E args sd) (abspath E (network args))
      (abspath E (service_functions args)) (abspath E (config args)) w_loop
      = Ok tt w_copied ∧
    create_input_file E (results_dir_of E args sd) (length ingress) "LoadBalance"
      (ext w_copied) (fs w_copied) = (inr tt, ext w', fs w') ∧
    isdir (fs w_copied) (results_dir_of E args sd) ∧
    is_Some (content (fs w_loop) (abspath E (network args))) ∧
    is_Some (content (fs w_copied)
               (results_dir_of E args sd +:+ "/"
                  +:+ basename (abspath E (config args)))) ∧
    (¬ samefile (fs w_copied) (abspath E (config args))
         (results_dir_of E args sd +:+ "/"
            +:+ basename (abspath E (network args))) →
     ¬ samefile (fs w_copied) (abspath E (config args))
         (results_dir_of E args sd +:+ "/"
            +:+ basename (abspath E (service_functions args))) →
     content (fs w_copied)
       (results_dir_of E args sd +:+ "/" +:+ basename (abspath E (config args)))
     = content (fs w_loop) (abspath E (config args))) ∧
    (¬ samefile (fs w_copied) (abspath E (service_functions args))
         (results_dir_of E args sd +:+ "/"
            +:+ basename (abspath E (network args))) →
     ¬ samefile (fs w_copied)
         (results_dir_of E args sd +:+ "/"
            +:+ basename (abspath E (service_functions args)))
         (results_dir_of E args sd +:+ "/"
            +:+ basename (abspath E (config args))) →
     is_Some (content (fs w_loop) (abspath E (service_functions args))) ∧
     content (fs w_copied)
       (results_dir_of E args sd +:+ "/"
          +:+ basename (abspath E (service_functions args)))
     = content (fs w_loop) (abspath E (service_functions args))) ∧
    (¬ samefile (fs w_copied)
         (results_dir_of E args sd +:+ "/"
            +:+ basename (abspath E (network args)))
         (results_dir_of E args sd +:+ "/"
            +:+ basename (abspath E (service_functions args))) →
     ¬ samefile (fs w_copied)
         (results_dir_of E args sd +:+ "/"
            +:+ basename (abspath E (network args)))
         (results_dir_of E args sd +:+ "/"
            +:+ basename (abspath E (config args))) →
     content (fs w_copied)
       (results_dir_of E args sd +:+ "/" +:+ basename (abspath E (network args)))
     = content (fs w_loop) (abspath E (network args))).
Proof.
  intros laws HN Hok.
  apply main_ok_inv in Hok
    as (seed_evs & sd & init_state & nodes & ingress & sched & loop_evs
        & w_before & w_loop & w_copied
        & Hseed & Hnodes & Hsched & Hloop & Hfilter & Hcopy & Ht
        & Hbefore & Hrun & Hcreate).
  cbv zeta in Hfilter, Hcopy, Hbefore, Hrun, Hcreate. rewrite HN in Hfilter, Hrun.
  change (length (range 0)) with 0%nat in Hfilter. cbn [repeat] in Hfilter.
  change (range 0) with (@nil Z) in Hrun. cbn [apply_loop] in Hrun.
  injection Hrun as <-.
  assert (Hs : seed_evs = [] ∨ seed_evs = [ERandInt 1 9999]) by tauto.
  destruct (copy_input_files_contents E isdir content samefile laws _ _ _ _ _ _ Hcopy)
    as (Hdir & _ & Hn & Hdc & Hcc & Hcs & Hcn).
  exists sd, ingress,
    {| placement := get_placement nodes (st_service_functions init_state);
       scheduling := sched |},
    (seed_evs ++ setup_events E args sd ++
       ESimInit sd :: ELogInit (network_stats init_state) :: loop_evs ++
       final_events E args sd (length ingress)), w_before, w_copied.
  split; [exact Ht|].
  unfold setup_events, final_events, copy_events. cbn [app].
  split; [|split; [|split;
    [|exact (conj Hbefore (conj Hcopy (conj Hcreate (conj Hdir
        (conj Hn (conj Hdc (conj Hcc (conj Hcs Hcn))))))))]]].
  - rewrite filter_app, (filter_seed_events is_init seed_evs) by done.
    filter_events.
    rewrite (filter_loop_events is_init loop_evs); [|by intros []|done].
    by filter_events.
  - rewrite filter_app, (filter_seed_events is_apply seed_evs) by done.
    filter_events. rewrite Hfilter. by filter_events.
  - rewrite filter_app, (filter_seed_events is_copy seed_evs) by done.
    filter_events.
    rewrite (filter_loop_events is_copy loop_evs); [|by intros []|done].
    by filter_events.
Qed.

(** ** Copies come after the applies, in every run *)


Lemma split_after_clean (P : Event → bool) (evs1 evs2 l1 l2 : list Event)
    (x : Event) :
  Forall (λ ev, P ev = true) evs1 → P x = false →
  evs1 ++ evs2 = l1 ++ x :: l2 →
  ∃ l1', l1 = evs1 ++ l1' ∧ evs2 = l1' ++ x :: l2.
Proof.
  intros Hall Hx. revert l1.
  induction Hall as [|e evs1 He _ IH]; intros l1 Heq.
  - by exists l1.
  - destruct l1 as [|e' l1]; simplify_eq/=; [congruence|].
    destruct (IH l1) as (l1' & -> & ->); [done|]. by exists l1'.
Qed.


Lemma filter_forall_false (P Q : Event → bool) (evs : list Event) :
  (∀ ev, P ev = true → Q ev = false) →
  Forall (λ ev, P ev = true) evs →
  filter (λ ev, Q ev = true) evs = [].
Proof.
  intros HPQ Hall. induction Hall as [|ev evs Hev _ IH]; [done|].
  rewrite filter_cons_False; [done|]. by rewrite (HPQ ev Hev).
Qed.

Lemma copies_last_setup {A B} (N n0 : nat) (m : Run A) (k : A → Run B) :
  only is_setup m → (∀ a, copies_last N n0 (k a)) →
  copies_last N n0 (bind m k).
Proof.
  intros Hm Hk w. destruct (Hm w) as (evs1 & Ht1 & Hall). unfold bind.
  assert (Hno : Forall (λ ev : Event, negb (is_copy ev) = true) evs1).
  { eapply Forall_impl; [exact Hall|]. intros ev. unfold is_setup.
    by intros [? _]%andb_true_iff. }
  destruct (m w) as [a w1|e w1]; cbn [final_world] in *.
  - destruct (Hk a w1) as (evs2 & Ht2 & Hsplit).
    exists (evs1 ++ evs2). split; [by rewrite Ht2, Ht1, app_assoc|].
    intros l1 src dst l2 Heq.
    apply (split_after_clean (λ ev, negb (is_copy ev))) in Heq
      as (l1' & -> & ->); [|done|done].
    destruct (Hsplit l1' src dst l2 eq_refl) as [Hcount Hafter].
    split; [|done].
    rewrite filter_app, (filter_forall_false is_setup is_apply evs1); [done| |done].
    intros ev. unfold is_setup. intros [_ ?]%andb_true_iff.
    by destruct (is_apply ev).
  - exists evs1. split; [done|]. intros l1 src dst l2 ->.
    apply Forall_app in Hno as [_ Hno]. by inversion Hno.
Qed.

Lemma copies_last_loop {B} (E : Env Ext Stats FS) (N n0 : nat)
    (action : SimulatorAction) (indices : list Z) (k : unit → Run B) :
  copies_last N (n0 + length indices) (k tt) →
  copies_last N n0 (bind (apply_loop E action indices) k).
Proof.
  intros Hk w.
  destruct (apply_loop_trace E action indices w)
    as (evs1 & n & Ht1 & Hall & Hfilter & _ & Hn).
  unfold bind.
  assert (Hno : Forall (λ ev : Event, negb (is_copy ev) = true) evs1).
  { eapply Forall_impl; [exact Hall|]. by intros []. }
  destruct (apply_loop E action indices w) as [[] w1|e w1];
    cbn [final_world] in *.
  - destruct (Hk w1) as (evs2 & Ht2 & Hsplit).
    exists (evs1 ++ evs2). split; [by rewrite Ht2, Ht1, app_assoc|].
    intros l1 src dst l2 Heq.
    apply (split_after_clean (λ ev, negb (is_copy ev))) in Heq
      as (l1' & -> & ->); [|done|done].
    destruct (Hsplit l1' src dst l2 eq_refl) as [Hcount Hafter].
    split; [|done].
    rewrite filter_app, Hfilter, length_app, repeat_length.
    rewrite (Hn w1 eq_refl). lia.
  - exists evs1. split; [done|]. intros l1 src dst l2 ->.
    apply Forall_app in Hno as [_ Hno]. by inversion Hno.
Qed.

Lemma copies_last_final {A} (N : nat) (m : Run A) :
  only (λ ev, negb (is_apply ev)) m → copies_last N N m.
Proof.
  intros Hm w. destruct (Hm w) as (evs & Ht & Hall).
  exists evs. split; [done|]. intros l1 src dst l2 ->.
  apply Forall_app in Hall as [H1 H2]. inversion H2 as [|? ? _ H3]; subst.
  assert (Hnone : ∀ l : list Event, Forall (λ ev, negb (is_apply ev) = true) l →
            filter (λ ev, is_apply ev = true) l = []).
  { intros l Hl. apply (filter_forall_false (λ ev, negb (is_apply ev))); [|done].
    intros ev. by destruct (is_apply ev). }
  rewrite !Hnone by done. split; [simpl; lia | done].
Qed.

Lemma resolve_seed_only (E : Env Ext Stats FS) (s : option Z) :
  only is_setup (resolve_seed E s).
Proof.
  unfold resolve_seed. destruct s as [v|].
  - case_bool_decide; [by apply only_randint | apply only_ret].
  - by apply only_randint.
Qed.

Lemma main_copies_last (E : Env Ext Stats FS) (args : Args) :
  copies_last (Z.to_nat (iterations args)) 0 (main E args).
Proof.
  unfold main.
  apply copies_last_setup; [apply resolve_seed_only | intros sd].
  apply copies_last_setup; [by apply only_fs_call | intros _].
  apply copies_last_setup; [by apply only_call | intros _].
  apply copies_last_setup; [by apply only_emit | intros _].
  cbv zeta.
  apply copies_last_setup; [by apply only_call | intros _].
  apply copies_last_setup; [by apply only_call | intros init_state].
  apply copies_last_setup; [by apply only_emit | intros _].
  apply copies_last_setup; [apply only_lift_pure | intros nodes].
  apply copies_last_setup;
    [apply only_world_fun; intros w0; apply only_lift_pure | intros ingress].
  apply copies_last_setup; [apply only_lift_pure | intros sched].
  apply copies_last_loop. rewrite length_range. cbn [Nat.add].
  apply copies_last_final.
  apply only_bind; [apply copy_input_files_only | intros _].
  by apply only_call.
Qed.

(** C7.  In every run, returning or not, wherever a file is copied the
    apply loop is over: all the calls of [apply] that the iteration count
    asks for come before the copy, and none comes after it. *)
Theorem copies_after_all_applies (E : Env Ext Stats FS) (args : Args) (w : World)
    (l1 l2 : list Event) (src dst : string) :
  trace (final_world (main E args w)) = trace w ++ l1 ++ ECopyFile src dst :: l2 →
  length (filter (λ ev, is_apply ev = true) l1) = Z.to_nat (iterations args) ∧
  filter (λ ev, is_apply ev = true) l2 = [].
Proof.
  intros Ht. destruct (main_copies_last E args w) as (evs & Hevs & Hsplit).
  rewrite Hevs in Ht. apply app_inv_head in Ht.
  by destruct (Hsplit l1 src dst l2 Ht) as [Hcount Hafter].
Qed.

End Traces.

(** ** Runs of the scenario *)

Import FlatFileSystem Scenario.

(** The operations of the file system without links keep the contract. *)
Lemma flat_laws {Ext Stats : Type} (E : Env Ext Stats Flat) :
  os_makedirs E = (λ name, unchanged_on_error (makedirs name)) →
  shutil_copyfile E = (λ src dst, unchanged_on_error (copyfile src dst)) →
  FileLaws E isdir content samefile.
Proof.
  intros Hmk Hcp. unfold isdir, content, samefile.
  split; rewrite ?Hmk, ?Hcp.
  - intros name fs0 fs' Hm%FlatFileSystemFacts.unchanged_on_error_ok.
    by apply FlatFileSystemFacts.makedirs_ok_inv in Hm as (_ & ? & _).
  - intros name fs0 Hdir. exists fs0. unfold unchanged_on_error.
    by rewrite FlatFileSystemFacts.makedirs_exists.
  - intros name fs0 fs' a Hno Hm%FlatFileSystemFacts.unchanged_on_error_ok Ha Hne.
    apply FlatFileSystemFacts.makedirs_ok_inv in Hm as (_ & _ & _ & Hpre).
    by apply Hpre.
  - intros name fs0 r fs' q
      [[-> _]|[_ Hm]]%FlatFileSystemFacts.unchanged_on_error_inv Hq; [done|].
    apply FlatFileSystemFacts.makedirs_ok_inv in Hm as (_ & _ & Hsub & _).
    by apply Hsub.
  - intros name fs0 r fs' q
      [[-> _]|[_ Hm]]%FlatFileSystemFacts.unchanged_on_error_inv; [done|].
    apply FlatFileSystemFacts.makedirs_ok_inv in Hm as (Hf & _). by rewrite Hf.
  - intros src dst fs0 fs' Hc%FlatFileSystemFacts.unchanged_on_error_ok.
    apply FlatFileSystemFacts.copyfile_ok_inv in Hc as (data & Hsrc & ->).
    exists data. split; [done|]. cbn [files]. apply lookup_insert_eq.
  - intros src dst fs0 r fs' q
      [[-> _]|[_ Hc]]%FlatFileSystemFacts.unchanged_on_error_inv Hno; [done|].
    apply FlatFileSystemFacts.copyfile_ok_inv in Hc as (data & Hsrc & ->).
    cbn [files] in *. apply lookup_insert_ne. intros <-.
    apply Hno. split; [done|]. rewrite lookup_insert_eq. by eexists.
  - intros src dst fs0 r fs' q
      [[-> _]|[_ Hc]]%FlatFileSystemFacts.unchanged_on_error_inv Hq; [done|].
    by apply FlatFileSystemFacts.copyfile_ok_inv in Hc as (data & _ & ->).
  - intros src dst fs0 r fs' q q'
      [[-> _]|[_ Hc]]%FlatFileSystemFacts.unchanged_on_error_inv [-> Hq]; [done|].
    apply FlatFileSystemFacts.copyfile_ok_inv in Hc as (data & _ & ->).
    split; [done|]. cbn [files]. apply lookup_insert_is_Some'. by right.
Qed.

Lemma scenario_laws : FileLaws scenario_env isdir content samefile.
Proof. by apply flat_laws. Qed.

(** The scenario, run with no iteration. *)
Local Abbreviation zero_args := (scenario_args 0 (Some 42)).

Lemma resolve_seed_explicit {Ext Stats FS : Type} (E : Env Ext Stats FS) (v : Z)
    (w : World Ext Stats FS) :
  v ≠ 0 → resolve_seed E (Some v) w = Ok v w.
Proof. intros Hv. unfold resolve_seed. by rewrite bool_decide_eq_false_2. Qed.

(** C2 fails on the code for the explicit seed zero: the run draws a
    random integer and hands that to the simulator, not the seed given. *)
Theorem explicit_zero_seed_is_resampled :
  filter (λ ev, is_randint ev || is_init ev = true)
    (trace (final_world (main scenario_env (scenario_args 2 (Some 0)) scenario_world)))
  = [ERandInt 1 9999; ESimInit 4711].
Proof. vm_compute. reflexivity. Qed.

Lemma main_applies_same_action_witness :
  ((0 ≤ iterations (scenario_args 2 (Some 42)))%Z ∧
   main scenario_env (scenario_args 2 (Some 42)) scenario_world
   = Ok tt (final_world (main scenario_env (scenario_args 2 (Some 42)) scenario_world))) ∧
  ∃ sd (init_state : SimState string) nodes sched (pre post : list (Event string)),
    nodes_of init_state = inr nodes ∧
    get_schedule (normalize_scheduling_probabilities scenario_env) nodes
      (st_service_functions init_state) (sfcs init_state) = inr sched ∧
    trace (final_world (main scenario_env (scenario_args 2 (Some 42)) scenario_world))
      = trace scenario_world ++ pre ++ ESimInit sd :: post ∧
    filter (λ ev, is_apply ev = true) pre = [] ∧
    filter (λ ev, is_apply ev = true) post
      = repeat (ESimApply {| placement :=
                               get_placement nodes (st_service_functions init_state);
                             scheduling := sched |})
          (Z.to_nat (iterations (scenario_args 2 (Some 42)))) ∧
    Z.of_nat (length (filter (λ ev, is_apply ev = true) post))
      = iterations (scenario_args 2 (Some 42)).
Proof.
  assert (H0 : (0 ≤ iterations (scenario_args 2 (Some 42)))%Z) by (vm_compute; discriminate).
  assert (Hrun : main scenario_env (scenario_args 2 (Some 42)) scenario_world
                 = Ok tt (final_world
                     (main scenario_env (scenario_args 2 (Some 42)) scenario_world)))
    by (vm_compute; reflexivity).
  split; [by split|].
  exact (main_applies_same_action scenario_env (scenario_args 2 (Some 42))
           scenario_world _ H0 Hrun).
Defined.

Lemma main_zero_iterations_witness :
  (FileLaws scenario_env isdir content samefile ∧
   iterations zero_args = 0%Z ∧
   main scenario_env zero_args scenario_world
   = Ok tt (final_world (main scenario_env zero_args scenario_world))) ∧
  ∃ sd (ingress : list string) (action : SimulatorAction)
    (evs : list (Event string)) (w_loop w_copied : World nat string Flat),
    trace (final_world (main scenario_env zero_args scenario_world))
      = trace scenario_world ++ evs ∧
    filter (λ ev, is_init ev = true) evs = [ESimInit sd] ∧
    filter (λ ev, is_apply ev = true) evs = [] ∧
    filter (λ ev, is_copy ev = true) evs
      = copy_events (results_dir_of scenario_env zero_args sd) (abspath scenario_env (network zero_args))
          (abspath scenario_env (service_functions zero_args)) (abspath scenario_env (config zero_args)) ∧
    main_before_loop scenario_env zero_args scenario_world = Ok (sd, ingress, action) w_loop ∧
    copy_input_files scenario_env (results_dir_of scenario_env zero_args sd) (abspath scenario_env (network zero_args))
      (abspath scenario_env (service_functions zero_args)) (abspath scenario_env (config zero_args)) w_loop
      = Ok tt w_copied ∧
    create_input_file scenario_env (results_dir_of scenario_env zero_args sd) (length ingress) "LoadBalance"
      (ext w_copied) (fs w_copied)
    = (inr tt, ext (final_world (main scenario_env zero_args scenario_world)),
       fs (final_world (main scenario_env zero_args scenario_world))) ∧
    isdir (fs w_copied) (results_dir_of scenario_env zero_args sd) ∧
    is_Some (content (fs w_loop) (abspath scenario_env (network zero_args))) ∧
    is_Some (content (fs w_copied)
               (results_dir_of scenario_env zero_args sd +:+ "/"
                  +:+ basename (abspath scenario_env (config zero_args)))) ∧
    (¬ samefile (fs w_copied) (abspath scenario_env (config zero_args))
         (results_dir_of scenario_env zero_args sd +:+ "/"
            +:+ basename (abspath scenario_env (network zero_args))) →
     ¬ samefile (fs w_copied) (abspath scenario_env (config zero_args))
         (results_dir_of scenario_env zero_args sd +:+ "/"
            +:+ basename (abspath scenario_env (service_functions zero_args))) →
     content (fs w_copied)
       (results_dir_of scenario_env zero_args sd +:+ "/" +:+ basename (abspath scenario_env (config zero_args)))
     = content (fs w_loop) (abspath scenario_env (config zero_args))) ∧
    (¬ samefile (fs w_copied) (abspath scenario_env (service_functions zero_args))
         (results_dir_of scenario_env zero_args sd +:+ "/"
            +:+ basename (abspath scenario_env (network zero_args))) →
     ¬ samefile (fs w_copied)
         (results_dir_of scenario_env zero_args sd +:+ "/"
            +:+ basename (abspath scenario_env (service_functions zero_args)))
         (results_dir_of scenario_env zero_args sd +:+ "/"
            +:+ basename (abspath scenario_env (config zero_args))) →
     is_Some (content (fs w_loop) (abspath scenario_env (service_functions zero_args))) ∧
     content (fs w_copied)
       (results_dir_of scenario_env zero_args sd +:+ "/"
          +:+ basename (abspath scenario_env (service_functions zero_args)))
     = content (fs w_loop) (abspath scenario_env (service_functions zero_args))) ∧
    (¬ samefile (fs w_copied)
         (results_dir_of scenario_env zero_args sd +:+ "/"
            +:+ basename (abspath scenario_env (network zero_args)))
         (results_dir_of scenario_env zero_args sd +:+ "/"
            +:+ basename (abspath scenario_env (service_functions zero_args))) →
     ¬ samefile (fs w_copied)
         (results_dir_of scenario_env zero_args sd +:+ "/"
            +:+ basename (abspath scenario_env (network zero_args)))
         (results_dir_of scenario_env zero_args sd +:+ "/"
            +:+ basename (abspath scenario_env (config zero_args))) →
     content (fs w_copied)
       (results_dir_of scenario_env zero_args sd +:+ "/" +:+ basename (abspath scenario_env (network zero_args)))
     = content (fs w_loop) (abspath scenario_env (network zero_args))).
Proof.
  assert (Hrun : main scenario_env zero_args scenario_world
                 = Ok tt (final_world (main scenario_env zero_args scenario_world)))
    by (vm_compute; reflexivity).
  split; [split; [exact scenario_laws | by split]|].
  exact (main_zero_iterations scenario_env isdir content samefile zero_args
           scenario_world _ scenario_laws eq_refl Hrun).
Defined.

Lemma copies_after_all_applies_witness :
  trace (final_world (main scenario_env (scenario_args 2 (Some 42)) scenario_world))
  = trace scenario_world
    ++ take 11 (trace (final_world
                  (main scenario_env (scenario_args 2 (Some 42)) scenario_world)))
    ++ ECopyFile "/data/net.graphml"
         "/proj/results/net/sf/cfg/2020-01-01_00-00-00_seed42/net.graphml"
       :: drop 12 (trace (final_world
                     (main scenario_env (scenario_args 2 (Some 42)) scenario_world)))
  ∧
  length (filter (λ ev, is_apply ev = true)
            (take 11 (trace (final_world
               (main scenario_env (scenario_args 2 (Some 42)) scenario_world)))))
  = Z.to_nat (iterations (scenario_args 2 (Some 42))) ∧
  filter (λ ev, is_apply ev = true)
    (drop 12 (trace (final_world
       (main scenario_env (scenario_args 2 (Some 42)) scenario_world)))) = [].
Proof.
  assert (Hsplit :
    trace (final_world (main scenario_env (scenario_args 2 (Some 42)) scenario_world))
    = trace scenario_world
      ++ take 11 (trace (final_world
                    (main scenario_env (scenario_args 2 (Some 42)) scenario_world)))
      ++ ECopyFile "/data/net.graphml"
           "/proj/results/net/sf/cfg/2020-01-01_00-00-00_seed42/net.graphml"
         :: drop 12 (trace (final_world
                       (main scenario_env (scenario_args 2 (Some 42)) scenario_world))))
    by (vm_compute; reflexivity).
  split; [exact Hsplit|].
  exact (copies_after_all_applies scenario_env (scenario_args 2 (Some 42))
           scenario_world _ _ _ _ Hsplit).
Defined.

(** C10, as stated, fails when two inputs share a base name: the later
    copy replaces the earlier one, and under the base name of the network
    file the directory holds the service file. *)
Lemma copy_input_files_same_basename :
  match copy_input_files scenario_env "out" "a/x.yaml" "b/x.yaml" "c/cfg.yaml"
          clash_world with
  | Ok _ w' =>
      files (fs clash_world) !! "a/x.yaml" = Some "network" ∧
      files (fs w') !! ("out" +:+ "/" +:+ basename "a/x.yaml") = Some "services"
  | Fail _ _ => False
  end.
Proof. vm_compute. split; reflexivity. Qed.

(** The world after the three inputs of [existing_dir_world] are copied
    to its directory [out]. *)
Local Abbreviation copied_world :=
  (final_world
     (copy_input_files scenario_env "out" "a/net.graphml" "b/sf.yaml" "c/cfg.yaml"
        existing_dir_world)).

Lemma copy_input_files_copies_witness :
  (FileLaws scenario_env isdir content samefile ∧
   isdir (fs existing_dir_world) "out" ∧
   copy_input_files scenario_env "out" "a/net.graphml" "b/sf.yaml" "c/cfg.yaml"
     existing_dir_world = Ok tt copied_world ∧
   ¬ samefile (fs copied_world) "c/cfg.yaml" ("out" +:+ "/" +:+ basename "a/net.graphml") ∧
   ¬ samefile (fs copied_world) "c/cfg.yaml" ("out" +:+ "/" +:+ basename "b/sf.yaml") ∧
   ¬ samefile (fs copied_world) "b/sf.yaml" ("out" +:+ "/" +:+ basename "a/net.graphml") ∧
   ¬ samefile (fs copied_world) ("out" +:+ "/" +:+ basename "b/sf.yaml")
       ("out" +:+ "/" +:+ basename "c/cfg.yaml") ∧
   ¬ samefile (fs copied_world) ("out" +:+ "/" +:+ basename "a/net.graphml")
       ("out" +:+ "/" +:+ basename "b/sf.yaml") ∧
   ¬ samefile (fs copied_world) ("out" +:+ "/" +:+ basename "a/net.graphml")
       ("out" +:+ "/" +:+ basename "c/cfg.yaml")) ∧
  (∃ evs,
     trace copied_world
     = trace existing_dir_world ++
       EMakeDirs "out"
       :: ECopyFile "a/net.graphml" ("out" +:+ "/" +:+ basename "a/net.graphml")
       :: evs) ∧
  isdir (fs copied_world) "out" ∧
  content (fs copied_world) ("out" +:+ "/" +:+ basename "c/cfg.yaml")
    = content (fs existing_dir_world) "c/cfg.yaml" ∧
  content (fs copied_world) ("out" +:+ "/" +:+ basename "b/sf.yaml")
    = content (fs existing_dir_world) "b/sf.yaml" ∧
  content (fs copied_world) ("out" +:+ "/" +:+ basename "a/net.graphml")
    = content (fs existing_dir_world) "a/net.graphml".
Proof.
  assert (Hdir : isdir (fs existing_dir_world) "out")
    by (unfold isdir; apply (bool_decide_unpack _); vm_compute; exact I).
  assert (Hrun :
    copy_input_files scenario_env "out" "a/net.graphml" "b/sf.yaml" "c/cfg.yaml"
      existing_dir_world = Ok tt copied_world)
    by (vm_compute; reflexivity).
  assert (Hdiff : ∀ (fs0 : Flat) p q, bool_decide (p = q) = false →
                    ¬ samefile fs0 p q).
  { intros fs0 p q Hpq [Heq _]. by apply bool_decide_eq_false in Hpq. }
  assert (H1 : ¬ samefile (fs copied_world) "c/cfg.yaml"
                 ("out" +:+ "/" +:+ basename "a/net.graphml"))
    by (apply Hdiff; vm_compute; reflexivity).
  assert (H2 : ¬ samefile (fs copied_world) "c/cfg.yaml"
                 ("out" +:+ "/" +:+ basename "b/sf.yaml"))
    by (apply Hdiff; vm_compute; reflexivity).
  assert (H3 : ¬ samefile (fs copied_world) "b/sf.yaml"
                 ("out" +:+ "/" +:+ basename "a/net.graphml"))
    by (apply Hdiff; vm_compute; reflexivity).
  assert (H4 : ¬ samefile (fs copied_world) ("out" +:+ "/" +:+ basename "b/sf.yaml")
                 ("out" +:+ "/" +:+ basename "c/cfg.yaml"))
    by (apply Hdiff; vm_compute; reflexivity).
  assert (H5 : ¬ samefile (fs copied_world) ("out" +:+ "/" +:+ basename "a/net.graphml")
                 ("out" +:+ "/" +:+ basename "b/sf.yaml"))
    by (apply Hdiff; vm_compute; reflexivity).
  assert (H6 : ¬ samefile (fs copied_world) ("out" +:+ "/" +:+ basename "a/net.graphml")
                 ("out" +:+ "/" +:+ basename "c/cfg.yaml"))
    by (apply Hdiff; vm_compute; reflexivity).
  destruct (copy_input_files_copies scenario_env isdir content samefile scenario_laws
              "out" "a/net.graphml" "b/sf.yaml" "c/cfg.yaml" existing_dir_world)
    as [Hreaches Hafter].
  destruct (Hafter _ Hrun) as (_ & Hout & _ & _ & _ & Hcfg & Hsf & Hnet).
  split.
  { exact (conj scenario_laws (conj Hdir (conj Hrun
      (conj H1 (conj H2 (conj H3 (conj H4 (conj H5 H6)))))))). }
  split; [exact (Hreaches Hdir)|]. split; [exact Hout|].
  split; [exact (Hcfg H1 H2)|].
  split; [exact (proj2 (Hsf H3 H4)) | exact (Hnet H5 H6)].
Defined.

End DriverFacts.

(** * Further properties of the builders *)

Module BuildersMore.
Import Builders BuildersFacts Protocol.

(** ** Loops that agree *)

Lemma for_each_ext {A S} (body1 body2 : A → S → Exn + S) (l : list A) (s : S) :
  (∀ x s', x ∈ l → body1 x s' = body2 x s') →
  for_each body1 l s = for_each body2 l s.
Proof.
  revert s. induction l as [|x l IH]; intros s Hext; [done|].
  cbn [for_each]. rewrite Hext by left.
  destruct (body2 x s) as [e|s']; [done|].
  apply IH. intros y s'' Hy. apply Hext. by right.
Qed.

Lemma for_each_skip {A S} (body : A → S → Exn + S) (l : list A) (s : S) :
  (∀ x s', body x s' = inr s') → for_each body l s = inr s.
Proof.
  intros Hskip. induction l as [|x l IH]; [done|].
  cbn [for_each]. by rewrite Hskip.
Qed.

(** ** The keys of a stored distribution *)

Lemma insert_pairs_dom (d : Dist) (ns : list string) (vs : list Q) :
  length vs = length ns →
  dom (insert_pairs d (zip ns vs)) = dom d ∪ list_to_set ns.
Proof.
  revert d vs. induction ns as [|n ns IH]; intros d vs Hlen.
  - destruct vs; [|done]. cbn. by rewrite (right_id_L ∅ (∪)).
  - destruct vs as [|v vs]; [done|]. simpl in Hlen.
    unfold insert_pairs in *. cbn [zip zip_with foldl fst snd].
    rewrite IH by lia. rewrite dom_insert_L. cbn [list_to_set].
    apply set_eq. intros x. rewrite !elem_of_union, elem_of_singleton. tauto.
Qed.

Lemma popped_dist_dom (nodes_list : list string) (probs : list Q) :
  length probs = length nodes_list →
  dom (popped_dist nodes_list probs) = list_to_set nodes_list.
Proof.
  intros Hlen. unfold popped_dist.
  rewrite insert_pairs_dom by (by rewrite length_reverse).
  by rewrite dom_empty_L, (left_id_L ∅ (∪)).
Qed.

(** X1.  The schedule has an entry exactly for the triples of an origin among
    the nodes, a chain of the chain list and a function of the function
    list, and the destinations of every entry are exactly the nodes.  No
    assumption on repeated identifiers or on the values returned. *)
Theorem get_schedule_support (normalize : list Q → Exn + list Q)
    (nodes_list sf_list sfc_list : list string) (probs : list Q) (s : Schedule)
    (o c f : string) :
  normalize (repeat (0 : Q) (length nodes_list)) = inr probs →
  length probs = length nodes_list →
  get_schedule normalize nodes_list sf_list sfc_list = inr s →
  (is_Some (schedule_dist s o c f)
   ↔ o ∈ nodes_list ∧ c ∈ sfc_list ∧ f ∈ sf_list) ∧
  (∀ d, schedule_dist s o c f = Some d → dom d = list_to_set nodes_list).
Proof.
  intros Hzeros Hlen Hs.
  destruct (decide (nodes_list = [])) as [->|Hne].
  - rewrite get_schedule_no_nodes in Hs. injection Hs as <-.
    unfold schedule_dist. rewrite lookup_empty. split; [|done].
    split; [by intros [? ?] | by intros [?%elem_of_nil _]].
  - destruct (get_schedule_covered normalize nodes_list probs
                Hzeros Hlen Hne sf_list sfc_list) as (s' & Hs' & Hd).
    rewrite Hs in Hs'. injection Hs' as <-. rewrite Hd.
    destruct (decide (o ∈ nodes_list ∧ c ∈ sfc_list ∧ f ∈ sf_list)) as [Hin|Hout].
    + split; [by split; eauto|]. intros d [= <-]. by apply popped_dist_dom.
    + split; [|done]. split; [by intros [? ?] | done].
Qed.

Lemma get_schedule_support_witness :
  (uniform_normalizer (repeat (0 : Q) (length ["n1"; "n2"; "n1"]))
     = inr [(1 # 3)%Q; (1 # 3)%Q; (1 # 3)%Q] ∧
   length [(1 # 3)%Q; (1 # 3)%Q; (1 # 3)%Q] = length ["n1"; "n2"; "n1"] ∧
   get_schedule uniform_normalizer ["n1"; "n2"; "n1"] ["fw"] ["sfc_1"]
   = inr (schedule_of
            (get_schedule uniform_normalizer ["n1"; "n2"; "n1"] ["fw"] ["sfc_1"]))) ∧
  (is_Some (schedule_dist
              (schedule_of
                 (get_schedule uniform_normalizer ["n1"; "n2"; "n1"] ["fw"] ["sfc_1"]))
              "n2" "sfc_1" "ids")
   ↔ "n2" ∈ ["n1"; "n2"; "n1"] ∧ "sfc_1" ∈ ["sfc_1"] ∧ "ids" ∈ ["fw"]) ∧
  (∀ d, schedule_dist
          (schedule_of
             (get_schedule uniform_normalizer ["n1"; "n2"; "n1"] ["fw"] ["sfc_1"]))
          "n2" "sfc_1" "ids" = Some d →
        dom d = list_to_set ["n1"; "n2"; "n1"]).
Proof.
  assert (Hs : get_schedule uniform_normalizer ["n1"; "n2"; "n1"] ["fw"] ["sfc_1"]
               = inr (schedule_of
                        (get_schedule uniform_normalizer
                           ["n1"; "n2"; "n1"] ["fw"] ["sfc_1"])))
    by (vm_compute; reflexivity).
  split; [split; [reflexivity | split; [reflexivity | exact Hs]]|].
  exact (get_schedule_support uniform_normalizer ["n1"; "n2"; "n1"] ["fw"] ["sfc_1"]
           [(1 # 3)%Q; (1 # 3)%Q; (1 # 3)%Q] _ "n2" "sfc_1" "ids"
           eq_refl eq_refl Hs).
Defined.

(** X2.  With no service function or no chain there is nothing to schedule:
    the normalizer is not called, whatever it would do, and the empty
    schedule is returned for every node list. *)
Theorem get_schedule_nothing_to_schedule (normalize : list Q → Exn + list Q)
    (nodes_list sf_list sfc_list : list string) :
  sf_list = [] ∨ sfc_list = [] →
  get_schedule normalize nodes_list sf_list sfc_list = inr ∅.
Proof.
  intros Hempty. unfold get_schedule. apply for_each_skip.
  intros o s. destruct Hempty as [-> | ->]; [|done].
  by apply for_each_skip.
Qed.

Lemma get_schedule_nothing_to_schedule_witness :
  (([] : list string) = [] ∨ ["sfc_1"] = []) ∧
  get_schedule (λ _, inl (ExternalError "normalizer")) ["n1"; "n2"] [] ["sfc_1"]
  = inr ∅.
Proof.
  split; [by left|].
  apply (get_schedule_nothing_to_schedule _ ["n1"; "n2"] [] ["sfc_1"]). by left.
Defined.

(** X3.  An exception of the normalizer is the exception of [get_schedule],
    as soon as there is a node, a chain and a function. *)
Theorem get_schedule_normalizer_raises (normalize : list Q → Exn + list Q)
    (nodes_list sf_list sfc_list : list string) (e : Exn) :
  nodes_list ≠ [] → sf_list ≠ [] → sfc_list ≠ [] →
  normalize (repeat (0 : Q) (length nodes_list)) = inl e →
  get_schedule normalize nodes_list sf_list sfc_list = inl e.
Proof.
  intros Hn Hf Hc Hraise.
  destruct nodes_list as [|o ns]; [done|].
  destruct sf_list as [|f fs]; [done|].
  destruct sfc_list as [|c cs]; [done|].
  unfold get_schedule. cbn [for_each]. unfold sf_body at 1.
  by rewrite Hraise.
Qed.

Lemma get_schedule_normalizer_raises_witness :
  (["n1"] ≠ [] ∧ ["fw"] ≠ [] ∧ ["sfc_1"] ≠ [] ∧
   (λ _ : list Q, inl (ExternalError "normalizer") : Exn + list Q)
     (repeat (0 : Q) (length ["n1"])) = inl (ExternalError "normalizer")) ∧
  get_schedule (λ _, inl (ExternalError "normalizer")) ["n1"] ["fw"] ["sfc_1"]
  = inl (ExternalError "normalizer").
Proof.
  split; [repeat split; done|].
  by apply (get_schedule_normalizer_raises
              (λ _, inl (ExternalError "normalizer")) ["n1"] ["fw"] ["sfc_1"]).
Defined.

(** ** Too few or too many values *)

Lemma inner_loop_short (o c f : string) (ns : list string) (probs : list Q)
    (s : Schedule) :
  (length probs < length ns)%nat →
  inner_loop o c f ns probs s = inl IndexError.
Proof.
  revert probs s. induction ns as [|n ns IH]; intros probs s Hlen.
  - simpl in Hlen. lia.
  - cbn [inner_loop].
    destruct probs as [|p probs _] using rev_ind; [done|].
    rewrite pop_snoc. apply IH.
    rewrite length_app in Hlen. simpl in Hlen. lia.
Qed.

(** X4.  A normalizer that returns fewer values than there are nodes makes
    [get_schedule] raise [IndexError], as soon as there is a chain and a
    function. *)
Theorem get_schedule_too_few_values (normalize : list Q → Exn + list Q)
    (nodes_list sf_list sfc_list : list string) (probs : list Q) :
  sf_list ≠ [] → sfc_list ≠ [] →
  normalize (repeat (0 : Q) (length nodes_list)) = inr probs →
  (length probs < length nodes_list)%nat →
  get_schedule normalize nodes_list sf_list sfc_list = inl IndexError.
Proof.
  intros Hf Hc Hzeros Hlen.
  destruct nodes_list as [|o ns] eqn:Hnodes; [simpl in Hlen; lia|].
  destruct sf_list as [|f fs]; [done|].
  destruct sfc_list as [|c cs]; [done|].
  unfold get_schedule. cbn [for_each]. unfold sf_body at 1.
  rewrite Hzeros. by rewrite inner_loop_short.
Qed.

Lemma get_schedule_too_few_values_witness :
  (["fw"] ≠ [] ∧ ["sfc_1"] ≠ [] ∧
   (λ _ : list Q, inr [(1 # 2)%Q] : Exn + list Q)
     (repeat (0 : Q) (length ["n1"; "n2"])) = inr [(1 # 2)%Q] ∧
   (length [(1 # 2)%Q] < length ["n1"; "n2"])%nat) ∧
  get_schedule (λ _, inr [(1 # 2)%Q]) ["n1"; "n2"] ["fw"] ["sfc_1"]
  = inl IndexError.
Proof.
  split; [repeat split; (done || (simpl; lia))|].
  apply (get_schedule_too_few_values (λ _, inr [(1 # 2)%Q])
           ["n1"; "n2"] ["fw"] ["sfc_1"] [(1 # 2)%Q]);
    (done || (simpl; lia)).
Defined.

Lemma sf_body_surplus (normalize : list Q → Exn + list Q)
    (nodes_list : list string) (probs : list Q) (o c f : string) (s : Schedule) :
  normalize (repeat (0 : Q) (length nodes_list)) = inr probs →
  (length nodes_list ≤ length probs)%nat →
  sf_body normalize nodes_list o c f s
  = sf_body (λ _, inr (drop (length probs - length nodes_list) probs))
      nodes_list o c f s.
Proof.
  intros Hzeros Hlen. unfold sf_body. rewrite Hzeros.
  set (k := (length probs - length nodes_list)%nat).
  assert (Hdrop : length (drop k probs) = length nodes_list)
    by (rewrite length_drop; lia).
  rewrite (inner_loop_exact o c f nodes_list (drop k probs) s Hdrop).
  rewrite <- (take_drop k probs) at 1.
  rewrite <- (reverse_involutive (drop k probs)) at 1.
  rewrite inner_loop_reverse by (by rewrite length_reverse). done.
Qed.

(** X5.  A normalizer that returns more values than there are nodes does no
    harm: [get_schedule] returns, and what it stores is what it would
    store had it been given only the last [len(nodes)] values. *)
Theorem get_schedule_surplus_values (normalize : list Q → Exn + list Q)
    (nodes_list sf_list sfc_list : list string) (probs : list Q) :
  normalize (repeat (0 : Q) (length nodes_list)) = inr probs →
  (length nodes_list ≤ length probs)%nat →
  ∃ s, get_schedule normalize nodes_list sf_list sfc_list = inr s ∧
    ∀ o c f, o ∈ nodes_list → c ∈ sfc_list → f ∈ sf_list →
      schedule_dist s o c f
      = Some (popped_dist nodes_list
                (drop (length probs - length nodes_list) probs)).
Proof.
  intros Hzeros Hlen.
  set (last_values := drop (length probs - length nodes_list) probs).
  assert (Hsame : get_schedule normalize nodes_list sf_list sfc_list
                  = get_schedule (λ _, inr last_values) nodes_list sf_list sfc_list).
  { unfold get_schedule. apply for_each_ext. intros o s _.
    apply for_each_ext. intros c s' _. apply for_each_ext. intros f s'' _.
    by apply sf_body_surplus. }
  rewrite Hsame.
  destruct (decide (nodes_list = [])) as [Hnil|Hne].
  - exists ∅. split; [by rewrite Hnil|].
    intros o c f Ho. rewrite Hnil in Ho. by apply elem_of_nil in Ho.
  - destruct (get_schedule_covered (λ _, inr last_values) nodes_list last_values
                eq_refl) with (sf_list := sf_list) (sfc_list := sfc_list)
      as (s & Hs & Hd); [unfold last_values; rewrite length_drop; lia | done |].
    exists s. split; [done|]. intros o c f Ho Hc Hf.
    by rewrite Hd, decide_True.
Qed.

Lemma get_schedule_surplus_values_witness :
  ((λ _ : list Q, inr [(1 # 4)%Q; (1 # 2)%Q; (1 # 3)%Q] : Exn + list Q)
     (repeat (0 : Q) (length ["n1"; "n2"]))
   = inr [(1 # 4)%Q; (1 # 2)%Q; (1 # 3)%Q] ∧
   (length ["n1"; "n2"] ≤ length [(1 # 4)%Q; (1 # 2)%Q; (1 # 3)%Q])%nat) ∧
  ∃ s, get_schedule (λ _, inr [(1 # 4)%Q; (1 # 2)%Q; (1 # 3)%Q])
         ["n1"; "n2"] ["fw"] ["sfc_1"] = inr s ∧
    ∀ o c f, o ∈ ["n1"; "n2"] → c ∈ ["sfc_1"] → f ∈ ["fw"] →
      schedule_dist s o c f
      = Some (popped_dist ["n1"; "n2"]
                (drop (length [(1 # 4)%Q; (1 # 2)%Q; (1 # 3)%Q] - length ["n1"; "n2"])
                   [(1 # 4)%Q; (1 # 2)%Q; (1 # 3)%Q])).
Proof.
  split; [split; [reflexivity | simpl; lia]|].
  apply (get_schedule_surplus_values
           (λ _, inr [(1 # 4)%Q; (1 # 2)%Q; (1 # 3)%Q])
           ["n1"; "n2"] ["fw"] ["sfc_1"] [(1 # 4)%Q; (1 # 2)%Q; (1 # 3)%Q]);
    [reflexivity | simpl; lia].
Defined.

(** ** Stores into the nested mapping *)

(** X6.  A store into the schedule is read back at its four keys and changes
    the value at no other keys, whether or not the levels on the way
    existed before. *)
Theorem schedule_set_get (s : Schedule) (o c f n o' c' f' n' : string) (v : Q) :
  schedule_get (schedule_set s o c f n v) o' c' f' n'
  = if decide ((o', c', f', n') = (o, c, f, n)) then Some v
    else schedule_get s o' c' f' n'.
Proof.
  unfold schedule_get.
  destruct (decide ((o', c', f') = (o, c, f))) as [[= -> -> ->]|Hne].
  - rewrite schedule_set_dist_same.
    destruct (decide (n' = n)) as [->|Hn].
    + by rewrite decide_True, lookup_insert_eq.
    + rewrite decide_False by congruence. rewrite lookup_insert_ne by done.
      by destruct (schedule_dist s o c f).
  - rewrite schedule_set_dist_other by done.
    by rewrite decide_False by congruence.
Qed.

(** ** The placement depends on the set of nodes only *)

(** X7.  Two node lists with the same elements, in whatever order and however
    often repeated, give the same placement. *)
Theorem get_placement_same_nodes (nodes1 nodes2 sf_list : list string) :
  (∀ n, n ∈ nodes1 ↔ n ∈ nodes2) →
  get_placement nodes1 sf_list = get_placement nodes2 sf_list.
Proof.
  intros Hsame. apply map_eq. intros n. rewrite !get_placement_lookup.
  destruct (decide (n ∈ nodes1)) as [H1|H1].
  - by rewrite decide_True by (by apply Hsame).
  - by rewrite decide_False by (by rewrite <- Hsame).
Qed.

Lemma get_placement_same_nodes_witness :
  (∀ n, n ∈ ["n1"; "n2"; "n1"] ↔ n ∈ ["n2"; "n1"]) ∧
  get_placement ["n1"; "n2"; "n1"] ["fw"] = get_placement ["n2"; "n1"] ["fw"].
Proof.
  assert (Hsame : ∀ n, n ∈ ["n1"; "n2"; "n1"] ↔ n ∈ ["n2"; "n1"]).
  { intros n. rewrite !elem_of_cons, !elem_of_nil. tauto. }
  split; [exact Hsame|].
  exact (get_placement_same_nodes ["n1"; "n2"; "n1"] ["n2"; "n1"] ["fw"] Hsame).
Defined.

End BuildersMore.

(** * Further properties of the run driver *)

Module DriverMore.
Import Paths Builders Driver Protocol Scenario.
Import FlatFileSystemFacts DriverFacts.

(** ** Ingress nodes *)

(** X8.  When every node of the network carries a [type], the ingress nodes
    are the identifiers of the nodes of type [Ingress], in the order of
    the network. *)
Theorem get_ingress_nodes_filter (nodes : list (string * gmap string string)) :
  Forall (λ node, is_Some (node.2 !! "type")) nodes →
  get_ingress_nodes nodes
  = inr ((filter (λ node, node.2 !! "type" = Some "Ingress") nodes).*1).
Proof.
  induction 1 as [|node nodes [ty Hty] _ IH]; [done|].
  cbn [get_ingress_nodes]. rewrite Hty, IH.
  case_bool_decide as Hing.
  - subst ty. by rewrite filter_cons_True.
  - rewrite filter_cons_False; [done|]. rewrite Hty. by intros [= ->].
Qed.

Lemma get_ingress_nodes_filter_witness :
  Forall (λ node : string * gmap string string, is_Some (node.2 !! "type"))
    [ ("n1", {[ "type" := "Ingress" ]}); ("n2", {[ "type" := "Normal" ]});
      ("n3", {[ "type" := "Ingress" ]}) ] ∧
  get_ingress_nodes
    [ ("n1", {[ "type" := "Ingress" ]}); ("n2", {[ "type" := "Normal" ]});
      ("n3", {[ "type" := "Ingress" ]}) ]
  = inr ((filter (λ node : string * gmap string string,
                    node.2 !! "type" = Some "Ingress")
            [ ("n1", {[ "type" := "Ingress" ]}); ("n2", {[ "type" := "Normal" ]});
              ("n3", {[ "type" := "Ingress" ]}) ]).*1).
Proof.
  assert (Hall : Forall (λ node : string * gmap string string,
                           is_Some (node.2 !! "type"))
            [ ("n1", {[ "type" := "Ingress" ]}); ("n2", {[ "type" := "Normal" ]});
              ("n3", {[ "type" := "Ingress" ]}) ])
    by (repeat constructor; by eexists).
  split; [exact Hall|]. exact (get_ingress_nodes_filter _ Hall).
Defined.

(** X9.  [get_ingress_nodes] raises exactly when some node of the network
    carries no [type], wherever that node stands, and what it raises is
    the [KeyError] of that key. *)
Theorem get_ingress_nodes_raises (nodes : list (string * gmap string string))
    (e : Exn) :
  get_ingress_nodes nodes = inl e
  ↔ e = KeyError "type" ∧ Exists (λ node, node.2 !! "type" = None) nodes.
Proof.
  induction nodes as [|node nodes IH].
  - split; [done|]. by intros [_ ?%Exists_nil].
  - cbn [get_ingress_nodes]. rewrite Exists_cons.
    destruct (node.2 !! "type") as [ty|] eqn:Hty.
    + destruct (get_ingress_nodes nodes) as [e'|ing].
      * split.
        -- intros [= <-]. destruct (proj1 IH eq_refl) as [-> Hex]. auto.
        -- intros [-> [?|Hex]]; [congruence|]. apply IH. auto.
      * split; [done|]. intros [-> [?|Hex]]; [congruence|].
        pose proof (proj2 IH (conj eq_refl Hex)) as Habs. discriminate Habs.
    + split; [intros [= <-]; auto | by intros [-> _]].
Qed.

Lemma get_ingress_nodes_raises_witness :
  Exists (λ node : string * gmap string string, node.2 !! "type" = None)
    [ ("n1", {[ "type" := "Ingress" ]}); ("n2", ∅) ] ∧
  get_ingress_nodes [ ("n1", {[ "type" := "Ingress" ]}); ("n2", ∅) ]
  = inl (KeyError "type").
Proof.
  assert (Hex : Exists (λ node : string * gmap string string,
                          node.2 !! "type" = None)
            [ ("n1", {[ "type" := "Ingress" ]}); ("n2", ∅) ])
    by (right; left; reflexivity).
  split; [exact Hex|].
  exact (proj2 (get_ingress_nodes_raises _ (KeyError "type")) (conj eq_refl Hex)).
Defined.

(** ** The node list *)

Lemma node_ids_spec (nodes : list (gmap string string)) (ids : list string) :
  node_ids nodes = inr ids ↔ Forall2 (λ node i, node !! "id" = Some i) nodes ids.
Proof.
  revert ids. induction nodes as [|node nodes IH]; intros ids.
  - split; [intros [= <-]; constructor | by intros ->%Forall2_nil_inv_l].
  - cbn [node_ids]. destruct (node !! "id") as [i|] eqn:Hi.
    + destruct (node_ids nodes) as [e|ids'] eqn:Hrest.
      * split; [done|]. intros (i' & ids' & Hi' & Hall & ->)%Forall2_cons_inv_l.
        by apply IH in Hall.
      * split.
        -- intros [= <-]. constructor; [done|]. by apply IH.
        -- intros (i' & ids'' & Hi' & Hall & ->)%Forall2_cons_inv_l.
           apply IH in Hall. congruence.
    + split; [done|]. intros (i' & ids' & Hi' & _)%Forall2_cons_inv_l.
      congruence.
Qed.

(** X10.  The node list that [main] derives from a state is the list of the
    identifiers of the node descriptors, one for each descriptor and in
    their order; there is one exactly when the network has an entry
    [nodes] and each descriptor has an [id]. *)
Theorem nodes_of_spec {Stats : Type} (init_state : SimState Stats)
    (ids : list string) :
  nodes_of init_state = inr ids
  ↔ ∃ nodes, st_network init_state !! "nodes" = Some nodes ∧
             Forall2 (λ node i, node !! "id" = Some i) nodes ids.
Proof.
  unfold nodes_of. destruct (st_network init_state !! "nodes") as [nodes|].
  - rewrite node_ids_spec. split; [eauto|]. by intros (? & [= <-] & ?).
  - split; [done|]. by intros (? & ? & _).
Qed.

Lemma nodes_of_spec_witness :
  nodes_of (scenario_state "init") = inr ["n1"; "n2"; "n3"] ∧
  ∃ nodes, st_network (scenario_state "init") !! "nodes" = Some nodes ∧
           Forall2 (λ node i, node !! "id" = Some i) nodes ["n1"; "n2"; "n3"].
Proof.
  assert (Hids : nodes_of (scenario_state "init") = inr ["n1"; "n2"; "n3"])
    by (vm_compute; reflexivity).
  split; [exact Hids|].
  exact (proj1 (nodes_of_spec (scenario_state "init") ["n1"; "n2"; "n3"]) Hids).
Defined.

(** ** The seed *)

Section Seed.

Context {Ext Stats FS : Type}.

Local Abbreviation World := (World Ext Stats FS).
Local Abbreviation Event := (Event Stats).
Local Abbreviation Run := (@Run Ext Stats FS).
Local Abbreviation only := (Driver.only (Ext:=Ext) (Stats:=Stats) (FS:=FS)).

Lemma apply_loop_only (E : Env Ext Stats FS) (P : Event → bool)
    (action : SimulatorAction) (indices : list Z) :
  (∀ ev, is_loop_event ev = true → P ev = true) →
  only P (apply_loop E action indices).
Proof.
  intros HP w.
  destruct (apply_loop_trace E action indices w) as (evs & k & Ht & Hall & _).
  exists evs. split; [done|]. eapply Forall_impl; [exact Hall|]. exact HP.
Qed.

Lemma randint_ok (E : Env Ext Stats FS) (a b : Z) (w : World) :
  randint E a b w
  = Ok (random_randint E a b (ext w)).1
      {| fs := fs w; ext := (random_randint E a b (ext w)).2;
         trace := trace w ++ [ERandInt a b] |}.
Proof.
  unfold randint, bind, emit. cbn [fs ext trace].
  by destruct (random_randint E a b (ext w)).
Qed.

(** Closes the side conditions of the walk along [main]. *)
Ltac seed_event :=
  cbn [carries_seed];
  repeat first
    [ reflexivity
    | apply orb_true_iff; first [left; apply bool_decide_eq_true_2; reflexivity
                                | right; apply bool_decide_eq_true_2; reflexivity]
    | apply bool_decide_eq_true_2; first [reflexivity | apply parent_join] ].

(** After the seed is resolved, [main] forms every name from it and from
    nothing else. *)
Lemma main_after_seed (E : Env Ext Stats FS) (args : Args) :
  ∃ K : Z → Run unit,
    main E args = bind (resolve_seed E (seed args)) K ∧
    ∀ s, only (carries_seed E args s) (K s).
Proof.
  unfold main. eexists. split; [reflexivity|]. intros s. cbv beta zeta.
  apply only_bind; [apply only_fs_call; seed_event | intros _].
  apply only_bind; [apply only_call; seed_event | intros _].
  apply only_bind; [apply only_emit; seed_event | intros _].
  apply only_bind; [apply only_call; seed_event | intros _].
  apply only_bind; [apply only_call; seed_event | intros init_state].
  apply only_bind; [apply only_emit; seed_event | intros _].
  apply only_bind; [apply only_lift_pure | intros nodes].
  apply only_bind;
    [apply only_world_fun; intros w0; apply only_lift_pure | intros ingress].
  apply only_bind; [apply only_lift_pure | intros sched].
  apply only_bind; [apply apply_loop_only; by intros [] | intros _].
  apply only_bind; [|intros _; apply only_call; seed_event].
  unfold copy_input_files.
  do 3 (apply only_bind; [apply only_fs_call; seed_event | intros _]).
  apply only_fs_call; seed_event.
Qed.

(** X11.  An explicit seed other than zero is the seed of the run: in every
    run, returning or not, no random number is drawn, the simulator is
    initialized with that seed, and the log file and the results
    directory are named after it. *)
Theorem main_uses_explicit_seed (E : Env Ext Stats FS) (args : Args) (s : Z)
    (w : World) :
  seed args = Some s → s ≠ 0 →
  ∃ evs, trace (final_world (main E args w)) = trace w ++ evs ∧
         Forall (λ ev, carries_seed E args s ev = true) evs.
Proof.
  intros Hseed Hs. destruct (main_after_seed E args) as (K & -> & HK).
  unfold bind. rewrite Hseed, resolve_seed_explicit by done. apply HK.
Qed.

(** X12.  Without a seed on the command line, the first thing a run does is
    draw an integer between 1 and 9999; it draws once, and the number
    drawn is the seed of the run from then on. *)
Theorem main_draws_absent_seed (E : Env Ext Stats FS) (args : Args) (w : World) :
  seed args = None →
  ∃ evs,
    trace (final_world (main E args w)) = trace w ++ ERandInt 1 9999 :: evs ∧
    Forall (λ ev, carries_seed E args (random_randint E 1 9999 (ext w)).1 ev = true)
      evs.
Proof.
  intros Hseed. destruct (main_after_seed E args) as (K & -> & HK).
  unfold bind. rewrite Hseed. cbn [resolve_seed]. rewrite randint_ok.
  match goal with |- context [K ?r ?w1] => destruct (HK r w1) as (evs & Ht & Hall) end.
  exists evs. split; [|exact Hall].
  rewrite Ht. cbn [trace]. by rewrite <- app_assoc.
Qed.

(** ** The names formed from the seed *)

Lemma length_append (a c : string) :
  String.length (a +:+ c) = (String.length a + String.length c)%nat.
Proof. induction a as [|x a IH]; simpl; [done|]. by rewrite IH. Qed.

Lemma append_inj_r (a b c : string) : a +:+ c = b +:+ c → a = b.
Proof.
  revert b. induction a as [|x a IH]; intros [|y b] Heq.
  - done.
  - apply (f_equal String.length) in Heq.
    change (String y b +:+ c) with (String y (b +:+ c)) in Heq.
    change ("" +:+ c) with c in Heq.
    cbn [String.length] in Heq. rewrite length_append in Heq. lia.
  - apply (f_equal String.length) in Heq.
    change (String x a +:+ c) with (String x (a +:+ c)) in Heq.
    change ("" +:+ c) with c in Heq.
    cbn [String.length] in Heq. rewrite length_append in Heq. lia.
  - change (String x a +:+ c) with (String x (a +:+ c)) in Heq.
    change (String y b +:+ c) with (String y (b +:+ c)) in Heq.
    injection Heq as -> Heq. f_equal. by apply IH.
Qed.

(** X13.  Runs with different seeds write to different results directories and
    to different log files, everything else (arguments, time stamp,
    project root) being the same. *)
Theorem seed_names_differ (E : Env Ext Stats FS) (args : Args) (s1 s2 : Z) :
  s1 ≠ s2 →
  results_dir_of E args s1 ≠ results_dir_of E args s2 ∧
  log_filename E args s1 ≠ log_filename E args s2.
Proof.
  intros Hne. split; intros Heq; apply Hne.
  - unfold results_dir_of in Heq. cbv zeta in Heq.
    repeat apply append_inj_l in Heq. by apply (inj pretty).
  - unfold log_filename in Heq.
    repeat apply append_inj_l in Heq.
    apply append_inj_r in Heq. by apply (inj pretty).
Qed.

(** ** The apply loop *)

Lemma apply_loop_events (E : Env Ext Stats FS) (action : SimulatorAction)
    (indices : list Z) (w w' : World) :
  apply_loop E action indices w = Ok tt w' →
  ∃ stats : list Stats, length stats = length indices ∧
    trace w' = trace w ++ loop_events action ((λ i, i + 1) <$> indices) stats.
Proof.
  revert w. induction indices as [|i rest IH]; intros w Hok.
  - injection Hok as <-. exists []. by rewrite app_nil_r.
  - cbn [apply_loop] in Hok.
    apply bind_ok_inv in Hok as (st & w1 & Hcall & Hok).
    apply bind_ok_inv in Hok as (u & w2 & Hemit & Hok).
    pose proof (ok_trace _ _ _ _ _ Hcall (call_final_trace _ _ _)) as T1.
    pose proof (ok_trace _ _ _ _ _ Hemit (emit_final_trace _ _)) as T2.
    destruct (IH w2 Hok) as (stats & Hlen & Ht).
    exists (network_stats st :: stats). split; [simpl; by rewrite Hlen|].
    rewrite Ht, T2, T1. unfold loop_events. cbn [fmap list_fmap zip_with flat_map].
    by rewrite <- !app_assoc.
Qed.

(** X14.  An apply loop over [range(n)] that runs to its end alternates the
    calls of [apply] with the log lines, [n] times when [n] is positive
    and not at all otherwise, and numbers the log lines from 1 to [n]. *)
Theorem apply_loop_alternates (E : Env Ext Stats FS) (action : SimulatorAction)
    (n : Z) (w w' : World) :
  apply_loop E action (range n) w = Ok tt w' →
  ∃ stats : list Stats, length stats = Z.to_nat n ∧
    trace w' = trace w ++ loop_events action (seqZ 1 n) stats.
Proof.
  intros Hok. apply apply_loop_events in Hok as (stats & Hlen & Ht).
  exists stats. split; [by rewrite Hlen, length_range|].
  rewrite Ht. f_equal. f_equal. unfold range.
  change (seqZ 1 n) with (seqZ (1 + 0) n).
  rewrite <- (fmap_add_seqZ 1 0 n). apply list_fmap_ext. intros _ i _. lia.
Qed.

(** ** The calls of [apply], in every run *)

Local Abbreviation applies_at_most :=
  (Protocol.applies_at_most (Ext:=Ext) (Stats:=Stats) (FS:=FS)).

Lemma filter_setup_apply (evs : list Event) :
  Forall (λ ev, is_setup ev = true) evs →
  filter (λ ev, is_apply ev = true) evs = [].
Proof.
  apply filter_forall_false. intros ev. unfold is_setup.
  intros [_ ?]%andb_true_iff. by destruct (is_apply ev).
Qed.

Lemma filter_not_apply (evs : list Event) :
  Forall (λ ev, negb (is_apply ev) = true) evs →
  filter (λ ev, is_apply ev = true) evs = [].
Proof.
  apply (filter_forall_false (λ ev, negb (is_apply ev))).
  intros ev. by destruct (is_apply ev).
Qed.

Lemma applies_setup {A B} (N : nat) (m : Run A) (k : A → Run B) :
  only is_setup m → (∀ a, applies_at_most N (k a)) →
  applies_at_most N (bind m k).
Proof.
  intros Hm Hk w. destruct (Hm w) as (evs1 & Ht1 & Hall). unfold bind.
  destruct (m w) as [a w1|e w1]; cbn [final_world] in *.
  - destruct (Hk a w1) as (evs2 & action & n & Ht2 & Hfilter & Hn).
    exists (evs1 ++ evs2), action, n. split; [by rewrite Ht2, Ht1, app_assoc|].
    split; [|done]. by rewrite filter_app, filter_setup_apply.
  - exists evs1, {| placement := ∅; scheduling := ∅ |}, 0%nat.
    split; [done|]. split; [by rewrite filter_setup_apply | lia].
Qed.

Lemma applies_loop {B} (E : Env Ext Stats FS) (N : nat) (action : SimulatorAction)
    (indices : list Z) (k : unit → Run B) :
  (length indices ≤ N)%nat →
  only (λ ev, negb (is_apply ev)) (k tt) →
  applies_at_most N (bind (apply_loop E action indices) k).
Proof.
  intros HN Hk w.
  destruct (apply_loop_trace E action indices w)
    as (evs1 & n & Ht1 & _ & Hfilter & Hn & _).
  unfold bind.
  destruct (apply_loop E action indices w) as [[] w1|e w1];
    cbn [final_world] in *.
  - destruct (Hk w1) as (evs2 & Ht2 & Hall).
    exists (evs1 ++ evs2), action, n. split; [by rewrite Ht2, Ht1, app_assoc|].
    split; [|lia]. by rewrite filter_app, Hfilter, filter_not_apply, app_nil_r.
  - exists evs1, action, n. split; [done|]. split; [done|lia].
Qed.

(** X15.  In every run, returning or not, [apply] is called at most as often
    as the iteration count says (never, when the count is zero or
    negative), and always with one and the same action. *)
Theorem main_apply_calls (E : Env Ext Stats FS) (args : Args) (w : World) :
  ∃ (evs : list Event) action k,
    trace (final_world (main E args w)) = trace w ++ evs ∧
    filter (λ ev, is_apply ev = true) evs = repeat (ESimApply action) k ∧
    (k ≤ Z.to_nat (iterations args))%nat.
Proof.
  revert w. change (applies_at_most (Z.to_nat (iterations args)) (main E args)).
  unfold main.
  apply applies_setup; [apply resolve_seed_only | intros sd].
  apply applies_setup; [by apply only_fs_call | intros _].
  apply applies_setup; [by apply only_call | intros _].
  apply applies_setup; [by apply only_emit | intros _].
  cbv zeta.
  apply applies_setup; [by apply only_call | intros _].
  apply applies_setup; [by apply only_call | intros init_state].
  apply applies_setup; [by apply only_emit | intros _].
  apply applies_setup; [apply only_lift_pure | intros nodes].
  apply applies_setup;
    [apply only_world_fun; intros w0; apply only_lift_pure | intros ingress].
  apply applies_setup; [apply only_lift_pure | intros sched].
  apply applies_loop; [by rewrite length_range|].
  apply only_bind; [apply copy_input_files_only | intros _].
  by apply only_call.
Qed.

(** ** The order of the calls, in every run *)

Local Abbreviation within := (Protocol.within (Ext:=Ext) (Stats:=Stats) (FS:=FS)).

Lemma within_bind {A B} (lo hi1 lo2 hi : nat) (m : Run A) (k : A → Run B) :
  within lo hi1 m → (∀ a, within lo2 hi (k a)) →
  (lo ≤ lo2)%nat → (hi1 ≤ hi)%nat →
  (hi1 < lo2)%nat ∨ (lo = hi1 ∧ hi1 = lo2 ∧ repeatable hi1) →
  within lo hi (bind m k).
Proof.
  intros Hm Hk Hlo Hhi Hstep w.
  destruct (Hm w) as (evs1 & Ht1 & Hs1 & Hb1). unfold bind.
  destruct (m w) as [a w1|e w1]; cbn [final_world] in *.
  - destruct (Hk a w1) as (evs2 & Ht2 & Hs2 & Hb2).
    exists (evs1 ++ evs2). split; [by rewrite Ht2, Ht1, app_assoc|]. split.
    + rewrite fmap_app. apply StronglySorted_app. split; [|done].
      intros p q [ev1 [-> Hev1]]%list_elem_of_fmap [ev2 [-> Hev2]]%list_elem_of_fmap.
      rewrite Forall_forall in Hb1, Hb2.
      specialize (Hb1 ev1 Hev1). specialize (Hb2 ev2 Hev2).
      unfold phase_step.
      destruct Hstep as [?|(-> & <- & Hrep)]; [left; lia|].
      destruct (decide (phase ev1 = phase ev2)) as [Heq|Hne]; [|left; lia].
      right. split; [done|]. by replace (phase ev1) with hi1 by lia.
    + apply Forall_app. split.
      * eapply Forall_impl; [exact Hb1|]. intros ev ?. simpl in *. lia.
      * eapply Forall_impl; [exact Hb2|]. intros ev ?. simpl in *. lia.
  - exists evs1. split; [done|]. split; [done|].
    eapply Forall_impl; [exact Hb1|]. intros ev ?. simpl in *. lia.
Qed.

Lemma within_one {A} (m : Run A) (ev : Event) (r : nat) :
  (∀ w, trace (final_world (m w)) = trace w ++ [ev]) →
  phase ev = r → within r r m.
Proof.
  intros Hm Hr w. exists [ev]. split; [apply Hm|]. split.
  - repeat constructor.
  - repeat constructor; lia.
Qed.

Lemma within_silent {A} (lo hi : nat) (m : Run A) :
  (∀ w, trace (final_world (m w)) = trace w) → within lo hi m.
Proof.
  intros Hm w. exists []. rewrite app_nil_r. split; [apply Hm|].
  split; constructor.
Qed.

Lemma sorted_repeat (r : nat) (evs : list Event) :
  repeatable r → Forall (λ ev, phase ev = r) evs →
  StronglySorted phase_step (phase <$> evs).
Proof.
  intros Hrep Hall. induction Hall as [|ev evs Hev Hall IH]; [constructor|].
  cbn. constructor; [done|]. apply Forall_fmap.
  eapply Forall_impl; [exact Hall|]. intros ev' Hev'.
  right. cbn. rewrite Hev, Hev'. done.
Qed.

Lemma within_resolve_seed (E : Env Ext Stats FS) (s : option Z) :
  within 0 0 (resolve_seed E s).
Proof.
  assert (Hdraw : within 0 0 (randint E 1 9999)).
  { by apply (within_one _ (ERandInt 1 9999)); [apply randint_final_trace|]. }
  unfold resolve_seed. destruct s as [v|]; [|done].
  case_bool_decide; [done|]. by apply within_silent.
Qed.

Lemma within_apply_loop (E : Env Ext Stats FS) (action : SimulatorAction)
    (indices : list Z) :
  within 7 7 (apply_loop E action indices).
Proof.
  intros w.
  destruct (apply_loop_trace E action indices w) as (evs & k & Ht & Hall & _).
  assert (Hphase : Forall (λ ev : Event, phase ev = 7%nat) evs).
  { eapply Forall_impl; [exact Hall|]. by intros []. }
  exists evs. split; [done|]. split.
  - apply (sorted_repeat 7); [by left | done].
  - eapply Forall_impl; [exact Hphase|]. intros ev ->. lia.
Qed.

Lemma phase_makedirs (name : string) :
  name ≠ "logs" → phase (EMakeDirs (Stats:=Stats) name) = 8%nat.
Proof. intros Hne. cbn [phase]. by rewrite bool_decide_eq_false_2. Qed.

Lemma within_copy_input_files (E : Env Ext Stats FS)
    (target_dir network_path service_path sim_config_path : string) :
  target_dir ≠ "logs" →
  within 8 9
    (copy_input_files E target_dir network_path service_path sim_config_path).
Proof.
  intros Hne. unfold copy_input_files.
  apply (within_bind 8 8 9 9); [|intros _|lia|lia|left; lia].
  { apply (within_one _ (EMakeDirs target_dir));
      [apply fs_call_final_trace | by apply phase_makedirs]. }
  assert (Hcopy : ∀ src dst,
            within 9 9 (fs_call (ECopyFile src dst) (shutil_copyfile E src dst))).
  { intros src dst. by apply (within_one _ (ECopyFile src dst));
      [apply fs_call_final_trace|]. }
  apply (within_bind 9 9 9 9); [apply Hcopy|intros _|lia|lia|right; by repeat split; right].
  apply (within_bind 9 9 9 9); [apply Hcopy|intros _|lia|lia|right; by repeat split; right].
  apply Hcopy.
Qed.

Lemma results_dir_not_logs (E : Env Ext Stats FS) (args : Args) (s : Z) :
  results_dir_of E args s ≠ "logs".
Proof.
  unfold results_dir_of. cbv zeta. intros Heq.
  apply (f_equal String.length) in Heq.
  rewrite !length_append in Heq. cbn [String.length] in Heq. lia.
Qed.

Lemma main_within (E : Env Ext Stats FS) (args : Args) : within 0 10 (main E args).
Proof.
  unfold main.
  apply (within_bind 0 0 1 10); [apply within_resolve_seed|intros sd|lia|lia|left; lia].
  apply (within_bind 1 1 2 10); [|intros _|lia|lia|left; lia].
  { by apply (within_one _ (EMakeDirs "logs")); [apply fs_call_final_trace|]. }
  apply (within_bind 2 2 3 10); [|intros _|lia|lia|left; lia].
  { by eapply within_one; [apply call_final_trace|]. }
  apply (within_bind 3 3 4 10); [|intros _|lia|lia|left; lia].
  { by eapply within_one; [apply emit_final_trace|]. }
  cbv zeta.
  apply (within_bind 4 4 5 10); [|intros _|lia|lia|left; lia].
  { by eapply within_one; [apply call_final_trace|]. }
  apply (within_bind 5 5 6 10); [|intros init_state|lia|lia|left; lia].
  { by eapply within_one; [apply call_final_trace|]. }
  apply (within_bind 6 6 7 10); [|intros _|lia|lia|left; lia].
  { by eapply within_one; [apply emit_final_trace|]. }
  apply (within_bind 7 6 7 10); [|intros nodes|lia|lia|left; lia].
  { apply within_silent. intros w. by rewrite lift_pure_final_world. }
  apply (within_bind 7 6 7 10); [|intros ingress|lia|lia|left; lia].
  { apply within_silent. intros w. by rewrite lift_pure_final_world. }
  apply (within_bind 7 6 7 10); [|intros sched|lia|lia|left; lia].
  { apply within_silent. intros w. by rewrite lift_pure_final_world. }
  apply (within_bind 7 7 8 10); [apply within_apply_loop|intros _|lia|lia|left; lia].
  apply (within_bind 8 9 10 10); [|intros _|lia|lia|left; lia].
  { apply within_copy_input_files, results_dir_not_logs. }
  by eapply within_one; [apply call_final_trace|].
Qed.

Lemma sorted_at_most_once (P : Event → bool) (r : nat) (evs : list Event) :
  (∀ ev, P ev = true → phase ev = r) → ¬ repeatable r →
  StronglySorted phase_step (phase <$> evs) →
  (length (filter (λ ev, P ev = true) evs) ≤ 1)%nat.
Proof.
  intros HP Hrep. induction evs as [|ev evs IH]; intros Hs; [simpl; lia|].
  rewrite fmap_cons in Hs. apply StronglySorted_cons in Hs as [Hfirst Hs].
  destruct (P ev) eqn:Hev.
  - rewrite filter_cons_True by done.
    assert (Hnone : filter (λ ev', P ev' = true) evs = []).
    { rewrite Forall_fmap in Hfirst. clear IH Hs.
      induction Hfirst as [|ev' evs Hstep _ IH']; [done|].
      rewrite filter_cons_False; [done|]. intros Hev'. cbn in Hstep.
      rewrite (HP ev Hev), (HP ev' Hev') in Hstep.
      destruct Hstep as [?|[_ ?]]; [lia|done]. }
    rewrite Hnone. simpl. lia.
  - rewrite filter_cons_False by (by rewrite Hev). by apply IH.
Qed.

(** X16.  In every run, returning or not, the calls come in the order of the
    script: the draw of the seed, the log directory, the logging
    configuration, the construction of the simulator, its
    initialization, the apply loop, the results directory, the copies
    and the summary.  Only the events of the apply loop and the copies
    repeat; in particular the simulator is initialized at most once and
    the summary is written at most once. *)
Theorem main_call_order (E : Env Ext Stats FS) (args : Args) (w : World) :
  ∃ evs : list Event,
    trace (final_world (main E args w)) = trace w ++ evs ∧
    StronglySorted phase_step (phase <$> evs) ∧
    (length (filter (λ ev, is_init ev = true) evs) ≤ 1)%nat ∧
    (length (filter (λ ev, is_summary ev = true) evs) ≤ 1)%nat.
Proof.
  destruct (main_within E args w) as (evs & Ht & Hs & _).
  exists evs. split; [done|]. split; [done|]. split.
  - apply (sorted_at_most_once is_init 5); [by intros []| |done].
    unfold repeatable. lia.
  - apply (sorted_at_most_once is_summary 10); [by intros []| |done].
    unfold repeatable. lia.
Qed.

(** ** What [copy_input_files] leaves alone *)

(** X17.  A call of [copy_input_files] that returns has changed nothing but
    the files its three targets name: the state of the collaborators is
    as before, every directory that existed still exists, and every path
    that names none of the three target files reads as before. *)
Theorem copy_input_files_frame (E : Env Ext Stats FS)
    (isdir : FS → string → Prop) (content : FS → string → option string)
    (samefile : FS → string → string → Prop)
    (target_dir network_path service_path sim_config_path : string)
    (w w' : World) :
  FileLaws E isdir content samefile →
  copy_input_files E target_dir network_path service_path sim_config_path w
    = Ok tt w' →
  ext w' = ext w ∧
  (∀ p, isdir (fs w) p → isdir (fs w') p) ∧
  (∀ p,
     ¬ samefile (fs w') p (target_dir +:+ "/" +:+ basename network_path) →
     ¬ samefile (fs w') p (target_dir +:+ "/" +:+ basename service_path) →
     ¬ samefile (fs w') p (target_dir +:+ "/" +:+ basename sim_config_path) →
     content (fs w') p = content (fs w) p).
Proof.
  intros laws Hok.
  apply copy_input_files_ok_inv in Hok
    as (fs1 & fs2 & fs3 & fs4 & Hm & Hc1 & Hc2 & Hc3 & ->).
  cbn [fs ext trace].
  split; [done|]. split.
  - intros p Hp.
    eapply copyfile_keeps_dirs; [exact laws | exact Hc3 |].
    eapply copyfile_keeps_dirs; [exact laws | exact Hc2 |].
    eapply copyfile_keeps_dirs; [exact laws | exact Hc1 |].
    eapply makedirs_keeps_dirs; [exact laws | exact Hm | exact Hp].
  - intros p Hn Hs Hc.
    apply (copyfile_not_samefile E isdir content samefile laws _ _ _ _ _ _ _ Hc3)
      in Hn, Hs.
    apply (copyfile_not_samefile E isdir content samefile laws _ _ _ _ _ _ _ Hc2)
      in Hn.
    rewrite (copyfile_frame _ _ _ _ laws _ _ _ _ _ p Hc3 Hc).
    rewrite (copyfile_frame _ _ _ _ laws _ _ _ _ _ p Hc2 Hs).
    rewrite (copyfile_frame _ _ _ _ laws _ _ _ _ _ p Hc1 Hn).
    exact (makedirs_keeps_files _ _ _ _ laws _ _ _ _ p Hm).
Qed.

(** X18.  There is no rollback.  When the directory was made and the
    network file copied but the copy of the service file raises,
    [copy_input_files] raises that exception and leaves the file system
    as the failed copy left it, without an attempt to copy the
    configuration file: the directory is still there, and so are the
    bytes of the network file under its base name, unless the failed copy
    went to that same file. *)
Theorem copy_input_files_no_rollback (E : Env Ext Stats FS)
    (isdir : FS → string → Prop) (content : FS → string → option string)
    (samefile : FS → string → string → Prop)
    (target_dir network_path service_path sim_config_path : string)
    (w : World) (fs1 fs2 fs3 : FS) (e : Exn) :
  FileLaws E isdir content samefile →
  os_makedirs E target_dir (fs w) = (inr tt, fs1) →
  shutil_copyfile E network_path
    (target_dir +:+ "/" +:+ basename network_path) fs1 = (inr tt, fs2) →
  shutil_copyfile E service_path
    (target_dir +:+ "/" +:+ basename service_path) fs2 = (inl e, fs3) →
  copy_input_files E target_dir network_path service_path sim_config_path w
  = Fail e
      {| fs := fs3; ext := ext w;
         trace := trace w ++
           [ EMakeDirs target_dir;
             ECopyFile network_path (target_dir +:+ "/" +:+ basename network_path);
             ECopyFile service_path
               (target_dir +:+ "/" +:+ basename service_path) ] |} ∧
  isdir fs3 target_dir ∧
  is_Some (content (fs w) network_path) ∧
  (¬ samefile fs3 (target_dir +:+ "/" +:+ basename network_path)
       (target_dir +:+ "/" +:+ basename service_path) →
   content fs3 (target_dir +:+ "/" +:+ basename network_path)
   = content (fs w) network_path).
Proof.
  intros laws Hm Hc1 Hc2.
  destruct (copyfile_copies _ _ _ _ laws _ _ _ _ Hc1) as (cn & Hn1 & Hn2).
  pose proof (makedirs_keeps_files _ _ _ _ laws _ _ _ _ network_path Hm) as Hn0.
  split; [|split; [|split]].
  - unfold copy_input_files, bind.
    rewrite (fs_call_ok _ _ w fs1) by done.
    erewrite fs_call_ok by exact Hc1.
    erewrite fs_call_fail by exact Hc2.
    cbn [fs ext trace]. by rewrite <- !app_assoc.
  - eapply copyfile_keeps_dirs; [exact laws | exact Hc2 |].
    eapply copyfile_keeps_dirs; [exact laws | exact Hc1 |].
    by eapply makedirs_isdir.
  - rewrite <- Hn0, Hn1. by eexists.
  - intros Hno.
    rewrite (copyfile_frame _ _ _ _ laws _ _ _ _ _ _ Hc2 Hno).
    by rewrite Hn2, <- Hn0, Hn1.
Qed.

End Seed.

(** ** The further properties on the scenario *)

Lemma main_uses_explicit_seed_witness :
  (seed (scenario_args 2 (Some 42)) = Some 42 ∧ (42 : Z) ≠ 0) ∧
  ∃ evs,
    trace (final_world (main scenario_env (scenario_args 2 (Some 42)) scenario_world))
      = trace scenario_world ++ evs ∧
    Forall (λ ev, carries_seed scenario_env (scenario_args 2 (Some 42)) 42 ev = true)
      evs.
Proof.
  assert (Hne : (42 : Z) ≠ 0) by discriminate.
  split; [by split|].
  exact (main_uses_explicit_seed scenario_env (scenario_args 2 (Some 42)) 42
           scenario_world eq_refl Hne).
Defined.

Lemma main_draws_absent_seed_witness :
  seed (scenario_args 2 None) = None ∧
  ∃ evs,
    trace (final_world (main scenario_env (scenario_args 2 None) scenario_world))
      = trace scenario_world ++ ERandInt 1 9999 :: evs ∧
    Forall (λ ev, carries_seed scenario_env (scenario_args 2 None)
                    (random_randint scenario_env 1 9999 (ext scenario_world)).1 ev
                  = true) evs.
Proof.
  split; [reflexivity|].
  exact (main_draws_absent_seed scenario_env (scenario_args 2 None)
           scenario_world eq_refl).
Defined.

Lemma seed_names_differ_witness :
  (1 : Z) ≠ 2 ∧
  results_dir_of scenario_env (scenario_args 2 None) 1
    ≠ results_dir_of scenario_env (scenario_args 2 None) 2 ∧
  log_filename scenario_env (scenario_args 2 None) 1
    ≠ log_filename scenario_env (scenario_args 2 None) 2.
Proof.
  assert (Hne : (1 : Z) ≠ 2) by discriminate.
  split; [exact Hne|].
  exact (seed_names_differ scenario_env (scenario_args 2 None) 1 2 Hne).
Defined.

Lemma apply_loop_alternates_witness :
  apply_loop scenario_env {| placement := ∅; scheduling := ∅ |} (range 2)
    scenario_world
  = Ok tt (final_world
      (apply_loop scenario_env {| placement := ∅; scheduling := ∅ |} (range 2)
         scenario_world)) ∧
  ∃ stats : list string, length stats = Z.to_nat 2 ∧
    trace (final_world
      (apply_loop scenario_env {| placement := ∅; scheduling := ∅ |} (range 2)
         scenario_world))
    = trace scenario_world
      ++ loop_events {| placement := ∅; scheduling := ∅ |} (seqZ 1 2) stats.
Proof.
  assert (Hrun :
    apply_loop scenario_env {| placement := ∅; scheduling := ∅ |} (range 2)
      scenario_world
    = Ok tt (final_world
        (apply_loop scenario_env {| placement := ∅; scheduling := ∅ |} (range 2)
           scenario_world)))
    by (vm_compute; reflexivity).
  split; [exact Hrun|].
  exact (apply_loop_alternates scenario_env {| placement := ∅; scheduling := ∅ |} 2
           scenario_world _ Hrun).
Defined.

Import FlatFileSystem.

(** The world after the three inputs of [existing_dir_world] are copied
    to its directory [out]. *)
Local Abbreviation copied_world :=
  (final_world
     (copy_input_files scenario_env "out" "a/net.graphml" "b/sf.yaml" "c/cfg.yaml"
        existing_dir_world)).

Lemma copy_input_files_frame_witness :
  (FileLaws scenario_env isdir content samefile ∧
   copy_input_files scenario_env "out" "a/net.graphml" "b/sf.yaml" "c/cfg.yaml"
     existing_dir_world = Ok tt copied_world ∧
   ¬ samefile (fs copied_world) "b/sf.yaml"
       ("out" +:+ "/" +:+ basename "a/net.graphml") ∧
   ¬ samefile (fs copied_world) "b/sf.yaml"
       ("out" +:+ "/" +:+ basename "b/sf.yaml") ∧
   ¬ samefile (fs copied_world) "b/sf.yaml"
       ("out" +:+ "/" +:+ basename "c/cfg.yaml")) ∧
  ext copied_world = ext existing_dir_world ∧
  content (fs copied_world) "b/sf.yaml"
  = content (fs existing_dir_world) "b/sf.yaml".
Proof.
  assert (Hrun :
    copy_input_files scenario_env "out" "a/net.graphml" "b/sf.yaml" "c/cfg.yaml"
      existing_dir_world = Ok tt copied_world)
    by (vm_compute; reflexivity).
  assert (Hdiff : ∀ (fs0 : Flat) p q, bool_decide (p = q) = false →
                    ¬ samefile fs0 p q).
  { intros fs0 p q Hpq [Heq _]. by apply bool_decide_eq_false in Hpq. }
  assert (H1 : ¬ samefile (fs copied_world) "b/sf.yaml"
                 ("out" +:+ "/" +:+ basename "a/net.graphml"))
    by (apply Hdiff; vm_compute; reflexivity).
  assert (H2 : ¬ samefile (fs copied_world) "b/sf.yaml"
                 ("out" +:+ "/" +:+ basename "b/sf.yaml"))
    by (apply Hdiff; vm_compute; reflexivity).
  assert (H3 : ¬ samefile (fs copied_world) "b/sf.yaml"
                 ("out" +:+ "/" +:+ basename "c/cfg.yaml"))
    by (apply Hdiff; vm_compute; reflexivity).
  destruct (copy_input_files_frame scenario_env isdir content samefile
              "out" "a/net.graphml" "b/sf.yaml" "c/cfg.yaml"
              existing_dir_world _ scenario_laws Hrun) as (Hext & _ & Hframe).
  split; [exact (conj scenario_laws (conj Hrun (conj H1 (conj H2 H3))))|].
  split; [exact Hext | exact (Hframe "b/sf.yaml" H1 H2 H3)].
Defined.

(** The file system of [existing_dir_world] with the network file copied
    to its directory [out]. *)
Local Abbreviation network_copied :=
  {| dirs := dirs (fs existing_dir_world);
     files := <["out/net.graphml" := "network"]> (files (fs existing_dir_world)) |}.

Lemma copy_input_files_no_rollback_witness :
  (FileLaws scenario_env isdir content samefile ∧
   os_makedirs scenario_env "out" (fs existing_dir_world)
   = (inr tt, fs existing_dir_world) ∧
   shutil_copyfile scenario_env "a/net.graphml"
     ("out" +:+ "/" +:+ basename "a/net.graphml") (fs existing_dir_world)
   = (inr tt, network_copied) ∧
   shutil_copyfile scenario_env "b/missing.yaml"
     ("out" +:+ "/" +:+ basename "b/missing.yaml") network_copied
   = (inl (FileNotFoundError "b/missing.yaml"), network_copied)) ∧
  copy_input_files scenario_env "out" "a/net.graphml" "b/missing.yaml" "c/cfg.yaml"
    existing_dir_world
  = Fail (FileNotFoundError "b/missing.yaml")
      {| fs := network_copied;
         ext := ext existing_dir_world;
         trace := trace existing_dir_world ++
           [ EMakeDirs "out";
             ECopyFile "a/net.graphml" ("out" +:+ "/" +:+ basename "a/net.graphml");
             ECopyFile "b/missing.yaml"
               ("out" +:+ "/" +:+ basename "b/missing.yaml") ] |} ∧
  isdir network_copied "out" ∧
  is_Some (content (fs existing_dir_world) "a/net.graphml").
Proof.
  assert (H1 : os_makedirs scenario_env "out" (fs existing_dir_world)
               = (inr tt, fs existing_dir_world))
    by (vm_compute; reflexivity).
  assert (H2 : shutil_copyfile scenario_env "a/net.graphml"
                 ("out" +:+ "/" +:+ basename "a/net.graphml") (fs existing_dir_world)
               = (inr tt, network_copied))
    by (vm_compute; reflexivity).
  assert (H3 : shutil_copyfile scenario_env "b/missing.yaml"
                 ("out" +:+ "/" +:+ basename "b/missing.yaml") network_copied
               = (inl (FileNotFoundError "b/missing.yaml"), network_copied))
    by (vm_compute; reflexivity).
  destruct (copy_input_files_no_rollback scenario_env isdir content samefile
              "out" "a/net.graphml" "b/missing.yaml" "c/cfg.yaml"
              existing_dir_world _ _ _ _ scenario_laws H1 H2 H3)
    as (Hfail & Hdir & Hsome & _).
  split; [exact (conj scenario_laws (conj H1 (conj H2 H3)))|].
  exact (conj Hfail (conj Hdir Hsome)).
Defined.

End DriverMore.
